(** * GregoBaseExtract: the INSERT recognizer, the VALUES tokenizer and the join

    A shallow embedding of [scripts/extract_tables.py] and
    [scripts/unify_chants.py].

    Text.  A Python [str] is modelled as [list ascii]: the sequence of bytes of
    the UTF-8 text.  Every character the two scripts test for (quote,
    backslash, parentheses, comma, semicolon, backtick, newline, the letters of
    VALUES and NULL) is ASCII and never occurs inside a multi-byte sequence, so
    scanning, searching and slicing agree with Python on all text.  [str.strip]
    and [str.upper] are modelled on the ASCII range (the whitespace characters
    below 128 and the letters a-z); non-ASCII whitespace and non-ASCII case
    mappings are outside the model.

    Exceptions are results: [Raise e] where Python raises.  A [while] loop is a
    fuelled iteration whose fuel bound is proved sufficient. *)

From Stdlib Require Import Ascii String ZArith Lia.
From stdpp Require Import base option list gmap strings fin_maps.

Local Open Scope Z_scope.
Local Open Scope nat_scope.

Abbreviation str := (list ascii).

(** A literal of the source, as text. *)
Definition txt (s : string) : str := list_ascii_of_string s.

(** ** Characters of the source *)

Definition ch_nl : ascii := ascii_of_nat 10.
Definition ch_cr : ascii := ascii_of_nat 13.
Definition ch_tab : ascii := ascii_of_nat 9.
Definition ch_space : ascii := ascii_of_nat 32.
Definition ch_dquote : ascii := ascii_of_nat 34.
Definition ch_quote : ascii := ascii_of_nat 39.
Definition ch_lparen : ascii := ascii_of_nat 40.
Definition ch_rparen : ascii := ascii_of_nat 41.
Definition ch_comma : ascii := ascii_of_nat 44.
Definition ch_semi : ascii := ascii_of_nat 59.
Definition ch_backslash : ascii := ascii_of_nat 92.
Definition ch_backtick : ascii := ascii_of_nat 96.

Definition ascii_eqb (a b : ascii) : bool := bool_decide (a = b).

(** ** The [str] methods the scripts call *)

Module Py.

(** [c.isspace()] on the ASCII range: TAB, LF, VT, FF, CR, FS, GS, RS, US
    and the space. *)
Definition isspace (c : ascii) : bool :=
  let n := nat_of_ascii c in
  ((9 <=? n) && (n <=? 13)) || ((28 <=? n) && (n <=? 32)).

(** Membership of a character in the [chars] argument of [strip]. *)
Definition member (chars : str) (c : ascii) : bool :=
  existsb (ascii_eqb c) chars.

Fixpoint lstrip_by (p : ascii -> bool) (s : str) : str :=
  match s with
  | [] => []
  | c :: s' => if p c then lstrip_by p s' else s
  end.

Definition rstrip_by (p : ascii -> bool) (s : str) : str :=
  rev (lstrip_by p (rev s)).

(** [s.strip()], [s.rstrip(chars)], [s.strip(chars)]. *)
Definition strip (s : str) : str := rstrip_by isspace (lstrip_by isspace s).
Definition rstrip_chars (chars s : str) : str := rstrip_by (member chars) s.
Definition strip_chars (chars s : str) : str :=
  rstrip_by (member chars) (lstrip_by (member chars) s).

(** [s.upper()]. *)
Definition upper_char (c : ascii) : ascii :=
  let n := nat_of_ascii c in
  if (97 <=? n) && (n <=? 122) then ascii_of_nat (n - 32) else c.

Definition upper (s : str) : str := map upper_char s.

(** [s.startswith(p)] and [s.endswith(p)]. *)
Fixpoint startswith (p s : str) : bool :=
  match p, s with
  | [], _ => true
  | _ :: _, [] => false
  | a :: p', b :: s' => ascii_eqb a b && startswith p' s'
  end.

Definition endswith (p s : str) : bool := startswith (rev p) (rev s).

(** [s.find(sub)]: the lowest index where [sub] occurs; [None] stands
    for the result -1. *)
Fixpoint find (sub s : str) : option nat :=
  if startswith sub s then Some 0
  else match s with
       | [] => None
       | _ :: s' => S <$> find sub s'
       end.

(** [s.index(c, start)] for a one-character [c]: the lowest index at or
    after [start]; [None] stands for the [ValueError]. *)
Definition index_from (c : ascii) (s : str) (start : nat) : option nat :=
  (fun k => start + k) <$> find [c] (drop start s).

(** [s[a:b]] for [0 <= a], [0 <= b]. *)
Definition slice (s : str) (a b : nat) : str := take (b - a) (drop a s).

(** [s.split(c)] for a one-character separator. *)
Fixpoint split_go (c : ascii) (cur : str) (s : str) : list str :=
  match s with
  | [] => [rev cur]
  | x :: s' =>
      if ascii_eqb x c then rev cur :: split_go c [] s'
      else split_go c (x :: cur) s'
  end.

Definition split (c : ascii) (s : str) : list str := split_go c [] s.

(** [sep.join(parts)]. *)
Fixpoint join (sep : str) (parts : list str) : str :=
  match parts with
  | [] => []
  | [p] => p
  | p :: ps => p ++ sep ++ join sep ps
  end.

End Py.

(** ** Results of code that can raise *)

Inductive exn : Type :=
| IndexError
| ValueError
| FileNotFoundError (msg : str)
| OSError (msg : str).

Inductive res (A : Type) : Type :=
| Ok (a : A)
| Raise (e : exn)
| OutOfFuel.
Arguments Ok {A} a.
Arguments Raise {A} e.
Arguments OutOfFuel {A}.

#[global] Instance res_bind : MBind res := fun A B k m =>
  match m with
  | Ok a => k a
  | Raise e => Raise e
  | OutOfFuel => OutOfFuel
  end.

#[global] Instance res_ret : MRet res := fun A a => Ok a.

(** [s[i]]: raises [IndexError] out of range. *)
Definition char_at (s : str) (i : nat) : res ascii :=
  match s !! i with
  | Some c => Ok c
  | None => Raise IndexError
  end.

(** ** The tuple tokenizer: [parse_values_blob] *)

(** The literal [mapping] dictionary and [mapping.get(esc, esc)]. *)
Definition mapping_get (esc : ascii) : ascii :=
  if ascii_eqb esc "n" then ch_nl
  else if ascii_eqb esc "r" then ch_cr
  else if ascii_eqb esc "t" then ch_tab
  else if ascii_eqb esc ch_quote then ch_quote
  else if ascii_eqb esc ch_dquote then ch_dquote
  else if ascii_eqb esc ch_backslash then ch_backslash
  else esc.

Definition sql_token_to_text (token : str) : str :=
  if bool_decide (Py.upper token = txt "NULL") then [] else token.

(** The local variables of [parse_values_blob].  [cur] is the list of
    one-character strings, kept as the text that [join] makes of it. *)
Record pstate : Type := PState {
  rows : list (list str);
  cur_row : list str;
  cur : str;
  depth : Z;
  in_str : bool;
  i : nat
}.

Definition pstate_init : pstate :=
  {| rows := []; cur_row := []; cur := []; depth := 0%Z; in_str := false;
     i := 0 |}.

(** One iteration of the [while i < n] loop. *)
Definition loop_body (blob : str) (st : pstate) : res pstate :=
  let n := length blob in
  let '(PState rows cur_row cur depth in_str i) := st in
  ch ← char_at blob i;
  nxt ← (if i + 1 <? n then c ← char_at blob (i + 1); Ok [c] else Ok []);
  if in_str then
    if ascii_eqb ch ch_backslash then
      if i + 1 <? n then
        esc ← char_at blob (i + 1);
        Ok (PState rows cur_row (cur ++ [mapping_get esc]) depth in_str (i + 2))
      else
        Ok (PState rows cur_row (cur ++ [ch_backslash]) depth in_str (i + 1))
    else if ascii_eqb ch ch_quote then
      if bool_decide (nxt = [ch_quote]) then
        Ok (PState rows cur_row (cur ++ [ch_quote]) depth in_str (i + 2))
      else
        Ok (PState rows cur_row cur depth false (i + 1))
    else
      Ok (PState rows cur_row (cur ++ [ch]) depth in_str (i + 1))
  else if ascii_eqb ch ch_quote then
    Ok (PState rows cur_row cur depth true (i + 1))
  else if ascii_eqb ch ch_lparen then
    if (depth =? 0)%Z then
      Ok (PState rows [] [] (depth + 1)%Z in_str (i + 1))
    else
      Ok (PState rows cur_row (cur ++ [ch]) (depth + 1)%Z in_str (i + 1))
  else if ascii_eqb ch ch_rparen then
    let depth := (depth - 1)%Z in
    if (depth =? 0)%Z then
      let token := Py.strip cur in
      let cur_row := cur_row ++ [sql_token_to_text token] in
      Ok (PState (rows ++ [cur_row]) [] [] depth in_str (i + 1))
    else
      Ok (PState rows cur_row (cur ++ [ch]) depth in_str (i + 1))
  else if ascii_eqb ch ch_comma && (depth =? 1)%Z then
    let token := Py.strip cur in
    Ok (PState rows (cur_row ++ [sql_token_to_text token]) [] depth in_str
          (i + 1))
  else if ascii_eqb ch ch_semi && (depth =? 0)%Z then
    Ok (PState rows cur_row cur depth in_str (i + 1))
  else
    Ok (PState rows cur_row (cur ++ [ch]) depth in_str (i + 1)).

(** [while i < n: ...] with a bound on the number of iterations. *)
Fixpoint loop (fuel : nat) (blob : str) (st : pstate) : res pstate :=
  if i st <? length blob then
    match fuel with
    | 0 => OutOfFuel
    | S fuel' => st' ← loop_body blob st; loop fuel' blob st'
    end
  else Ok st.

Definition parse_values_blob (blob : str) : res (list (list str)) :=
  st ← loop (length blob) blob pstate_init; Ok (rows st).

(** ** The statement recognizer: [_split_insert] and [iter_insert_chunks] *)

(** [_split_insert(chunk)]: a [ValueError] of [str.index] is caught and gives
    [(None, None)]. *)
Definition _split_insert (chunk : str) : option (list str) * option str :=
  match Py.index_from ch_lparen chunk 0 with
  | None => (None, None)
  | Some pos_open =>
      match Py.index_from ch_rparen chunk (pos_open + 1) with
      | None => (None, None)
      | Some pos_close =>
          let cols_str := Py.slice chunk (pos_open + 1) pos_close in
          let rest := drop (pos_close + 1) chunk in
          let kw := txt "VALUES" in
          match Py.find kw (Py.upper rest) with
          | None => (None, None)
          | Some idx_vals =>
              let values_blob :=
                Py.rstrip_chars [ch_semi; ch_nl; ch_cr; ch_space]
                  (drop (idx_vals + length kw) rest) in
              let cols :=
                map (fun c => Py.strip_chars [ch_backtick] (Py.strip c))
                  (Py.split ch_comma cols_str) in
              (Some cols, Some values_blob)
          end
      end
  end.

(** The local variables of [iter_insert_chunks]. *)
Record rstate : Type := RState {
  acc : list str;
  capturing : bool
}.

Definition rstate_init : rstate := {| acc := []; capturing := false |}.

(** [prefix = f"INSERT INTO `{table}`"]. *)
Definition insert_prefix (table : str) : str :=
  txt "INSERT INTO `" ++ table ++ txt "`".

(** [cols, values = _split_insert(chunk)] followed by the guarded [yield]. *)
Definition yield_split (chunk : str) : list (list str * str) :=
  match _split_insert chunk with
  | (Some cols, Some values) => [(cols, values)]
  | _ => []
  end.

(** [line.strip().endswith(";")] on the line [raw.rstrip("\n")]. *)
Definition ends_statement (line : str) : bool :=
  Py.endswith [ch_semi] (Py.strip line).

(** The body of [for raw in fp]: the next state and what is yielded. *)
Definition line_step (table : str) (st : rstate) (raw : str)
  : rstate * list (list str * str) :=
  let line := Py.rstrip_chars [ch_nl] raw in
  if negb (capturing st) then
    if Py.startswith (insert_prefix table) line then
      let acc := [line] in
      if ends_statement line then
        (RState [] (capturing st), yield_split (Py.join [ch_nl] acc))
      else (RState acc true, [])
    else (st, [])
  else
    let acc := acc st ++ [line] in
    if ends_statement line then
      (RState [] false, yield_split (Py.join [ch_nl] acc))
    else (RState acc (capturing st), []).

Fixpoint scan (table : str) (st : rstate) (fp : list str)
  : rstate * list (list str * str) :=
  match fp with
  | [] => (st, [])
  | raw :: fp' =>
      let '(st1, ys) := line_step table st raw in
      let '(st2, ys') := scan table st1 fp' in
      (st2, ys ++ ys')
  end.

(** The sequence of pairs the generator yields over the lines of [fp]. *)
Definition iter_insert_chunks (fp : list str) (table : str)
  : list (list str * str) :=
  (scan table rstate_init fp).2.

(** ** Row alignment in [extract_table] *)

(** Lines 208-212: the value bound to [row] when it reaches [writerow]. *)
Definition align_row (header row : list str) : list str :=
  if negb (length row =? length header) then
    if length row <? length header then
      row ++ replicate (length header - length row) []
    else take (length header) row
  else row.

(** The local variables of [extract_table] that the statement loop updates,
    and [written], the rows handed to [writer.writerow] so far. *)
Record xstate : Type := XState {
  wrote_header : bool;
  header : list str;
  written : list (list str)
}.

Definition xstate_init : xstate :=
  {| wrote_header := false; header := []; written := [] |}.

(** The body of [for cols, values_blob in iter_insert_chunks(f, table)]. *)
Definition chunk_step (st : xstate) (chunk : list str * str) : res xstate :=
  let '(cols, values_blob) := chunk in
  let st :=
    if negb (wrote_header st) then XState true cols (written st ++ [cols])
    else st in
  rows ← parse_values_blob values_blob;
  Ok (XState (wrote_header st) (header st)
        (written st ++ map (align_row (header st)) rows)).

Fixpoint chunk_loop (st : xstate) (chunks : list (list str * str))
  : res xstate :=
  match chunks with
  | [] => Ok st
  | c :: chunks' => st' ← chunk_step st c; chunk_loop st' chunks'
  end.

(** [extract_table] on the lines of the dump: the rows of the CSV file. *)
Definition extract_table (fp : list str) (table : str)
  : res (list (list str)) :=
  st ← chunk_loop xstate_init (iter_insert_chunks fp table); Ok (written st).

(** *** The row loop over list objects

    Lines 207-213 again, with the lists as objects in a store: [rows] holds
    references, [row + [...]] and [row[:k]] allocate a new list, and the
    store shows whether an existing list is changed. *)

Abbreviation store := (gmap nat (list str)).

Definition alloc (h : store) (v : list str) : nat * store :=
  let l := fresh (dom h) in (l, <[l := v]> h).

(** One pass of [for row in rows]: the store afterwards and the reference
    handed to [writerow]. *)
Definition row_step (header : list str) (h : store) (r : nat)
  : option (store * nat) :=
  row ← h !! r;
  if negb (length row =? length header) then
    if length row <? length header then
      let '(r', h') :=
        alloc h (row ++ replicate (length header - length row) []) in
      Some (h', r')
    else
      let '(r', h') := alloc h (take (length header) row) in
      Some (h', r')
  else Some (h, r).

(** The loop: the store afterwards and the contents written. *)
Fixpoint row_loop (header : list str) (h : store) (rows : list nat)
  : option (store * list (list str)) :=
  match rows with
  | [] => Some (h, [])
  | r :: rows' =>
      '(h1, r') ← row_step header h r;
      line ← h1 !! r';
      '(h2, out) ← row_loop header h1 rows';
      Some (h2, line :: out)
  end.

(** ** Stage 2: [unify_chants.py] *)

(** A row of [csv.DictReader]: a dictionary from the field names to the cell,
    [None] where the line is shorter than the header. *)
Abbreviation csvrow := (list (str * option str)).

(** What [json.dumps] receives. *)
#[warnings="-register-all"]
Inductive jval : Type :=
| JNull
| JStr (s : str)
| JList (l : list jval)
| JDict (d : list (str * jval)).

Fixpoint assoc {V} (d : list (str * V)) (k : str) : option V :=
  match d with
  | [] => None
  | (k', v) :: d' => if bool_decide (k' = k) then Some v else assoc d' k
  end.

(** [row.get(k)]: [None] for a missing key as for a [None] cell. *)
Definition row_get (r : csvrow) (k : str) : option str := mjoin (assoc r k).

(** [d[k] = v] on a dictionary in insertion order. *)
Fixpoint dict_set {V} (d : list (str * V)) (k : str) (v : V)
  : list (str * V) :=
  match d with
  | [] => [(k, v)]
  | (k', v') :: d' =>
      if bool_decide (k' = k) then (k', v) :: d'
      else (k', v') :: dict_set d' k v
  end.

Definition jopt (o : option str) : jval :=
  match o with Some s => JStr s | None => JNull end.

Definition jrow (r : csvrow) : jval :=
  JDict (map (fun kv => (kv.1, jopt kv.2)) r).

(** Lines 41-46: the index of the sources by id. *)
Definition index_step (sources_by_id : gmap str csvrow) (s : csvrow)
  : gmap str csvrow :=
  match row_get s (txt "id") with
  | None => sources_by_id
  | Some sid => <[sid := s]> sources_by_id
  end.

Definition index_sources (sources : list csvrow) : gmap str csvrow :=
  foldl index_step ∅ sources.

(** [sources_by_id.get(src_id)], where [src_id] may be [None]. *)
Definition lookup_source (sources_by_id : gmap str csvrow)
  (src_id : option str) : option csvrow :=
  sid ← src_id; sources_by_id !! sid.

(** Lines 49-62: the bridge rows grouped by chant. *)
Definition group_step (sources_by_id : gmap str csvrow)
  (sources_by_chant : gmap str (list jval)) (cs : csvrow)
  : gmap str (list jval) :=
  match row_get cs (txt "chant_id") with
  | None => sources_by_chant
  | Some chant_id =>
      let src_id := row_get cs (txt "source") in
      let entry :=
        JDict [ (txt "id", jopt src_id);
                (txt "page", jopt (row_get cs (txt "page")));
                (txt "sequence", jopt (row_get cs (txt "sequence")));
                (txt "extent", jopt (row_get cs (txt "extent")));
                (txt "source",
                  match lookup_source sources_by_id src_id with
                  | Some s => jrow s
                  | None => JNull
                  end) ] in
      <[chant_id := default [] (sources_by_chant !! chant_id) ++ [entry]]>
        sources_by_chant
  end.

Definition group_sources (sources_by_id : gmap str csvrow)
  (chant_sources : list csvrow) : gmap str (list jval) :=
  foldl (group_step sources_by_id) ∅ chant_sources.

(** Lines 71-74: the object written for one chant. *)
Definition chant_obj (sources_by_chant : gmap str (list jval))
  (chant : csvrow) : jval :=
  let chant_id := row_get chant (txt "id") in
  let found := default [] (cid ← chant_id; sources_by_chant !! cid) in
  match jrow chant with
  | JDict d => JDict (dict_set d (txt "sources") (JList found))
  | j => j
  end.

(** The file system as [main] sees it. *)
Record fsys : Type := FSys {
  files : gmap str str;
  dirs : gset str
}.

Definition path_exists (fs : fsys) (p : str) : bool :=
  bool_decide (is_Some (files fs !! p)) || bool_decide (p ∈ dirs fs).

Record args : Type := Args {
  arg_output : option str;
  arg_gzip : bool;
  arg_rm : bool
}.

(** Code that reads and writes files: the file system is threaded through,
    and an exception leaves it as it was when the exception was raised. *)
Definition io (A : Type) : Type := fsys -> fsys * res A.

Definition io_ret {A} (a : A) : io A := fun fs => (fs, Ok a).

Definition io_raise {A} (e : exn) : io A := fun fs => (fs, Raise e).

Definition io_bind {A B} (m : io A) (k : A -> io B) : io B := fun fs =>
  match m fs with
  | (fs', Ok a) => k a fs'
  | (fs', Raise e) => (fs', Raise e)
  | (fs', OutOfFuel) => (fs', OutOfFuel)
  end.

Notation "'do' x <- m ; k" := (io_bind m (fun x => k))
  (at level 10, x name, m at level 100, k at level 200,
   format "'[v' 'do'  x  <-  m ; '/' k ']'").
Notation "m ;; k" := (io_bind m (fun _ => k))
  (at level 100, k at level 200, right associativity).

Section Stage2.

(** The module constants [CSV_DIR] and [OUTPUT_PATH], which depend on where
    the script is installed; [csv.DictReader] and [json.dumps]; the parent
    directories [mkdir(parents=True)] creates for a path; and the gzip step
    of lines 79-93, whose helper module is not part of the sources. *)
Variable CSV_DIR : str.
Variable OUTPUT_PATH : str.
Variable dict_reader : str -> list csvrow.
Variable json_dumps : jval -> str.
Variable parents : str -> list str.
Variable gzip_step : bool -> str -> io unit.

Definition path_join (d name : str) : str := d ++ txt "/" ++ name.

(** [if not path.exists(): raise FileNotFoundError(msg + path)]. *)
Definition require_exists (path msg : str) : io unit := fun fs =>
  if negb (path_exists fs path) then io_raise (FileNotFoundError (msg ++ path)) fs
  else io_ret tt fs.

(** [load_csv_dicts(path)]. *)
Definition load_csv_dicts (path : str) : io (list csvrow) := fun fs =>
  match files fs !! path with
  | Some content => io_ret (dict_reader content) fs
  | None => io_raise (OSError path) fs
  end.

(** [out_path.parent.mkdir(parents=True, exist_ok=True)]. *)
Definition mkdir_parents (out_path : str) : io unit := fun fs =>
  if existsb (fun d => bool_decide (is_Some (files fs !! d))) (parents out_path)
  then io_raise (OSError out_path) fs
  else (FSys (files fs) (dirs fs ∪ list_to_set (parents out_path)), Ok tt).

(** Lines 69-75: the file is truncated on opening and one line is written
    per chant. *)
Definition write_jsonl (out_path : str) (lines : list str) : io unit :=
  fun fs =>
  if bool_decide (out_path ∈ dirs fs) then io_raise (OSError out_path) fs
  else (FSys (<[out_path := concat lines]> (files fs)) (dirs fs), Ok tt).

(** [main()] after the arguments are parsed.  Printing is left out. *)
Definition main (a : args) : io unit :=
  let chants_path := path_join CSV_DIR (txt "gregobase_chants.csv") in
  let sources_path := path_join CSV_DIR (txt "gregobase_sources.csv") in
  let chant_sources_path :=
    path_join CSV_DIR (txt "gregobase_chant_sources.csv") in
  require_exists chants_path (txt "Missing chants CSV: ") ;;
  require_exists sources_path (txt "Missing sources CSV: ") ;;
  require_exists chant_sources_path (txt "Missing chant-sources CSV: ") ;;
  do chants <- load_csv_dicts chants_path;
  do sources <- load_csv_dicts sources_path;
  do chant_sources <- load_csv_dicts chant_sources_path;
  let sources_by_id := index_sources sources in
  let sources_by_chant := group_sources sources_by_id chant_sources in
  let out_path :=
    match arg_output a with
    | Some p => if bool_decide (p = []) then OUTPUT_PATH else p
    | None => OUTPUT_PATH
    end in
  mkdir_parents out_path ;;
  write_jsonl out_path
    (map (fun chant =>
            json_dumps (chant_obj sources_by_chant chant) ++ [ch_nl])
       chants) ;;
  if arg_gzip a then gzip_step (arg_rm a) out_path else io_ret tt.

End Stage2.

(** ** The statement boundary in the words of the specification

    The index of the first [;] that is outside a single-quoted literal,
    with the quoting rules of the tokenizer (backslash pairs and doubled
    quotes stay inside the literal).  The recognizer does not use it; it is
    what the recognizer is compared with. *)
Fixpoint spec_unquoted_semi_go (in_lit : bool) (k : nat) (s : str)
  : option nat :=
  match s with
  | [] => None
  | c :: s' =>
      if in_lit then
        if ascii_eqb c ch_backslash then
          match s' with
          | [] => None
          | _ :: s'' => spec_unquoted_semi_go true (k + 2) s''
          end
        else if ascii_eqb c ch_quote then
          match s' with
          | q :: s'' =>
              if ascii_eqb q ch_quote then spec_unquoted_semi_go true (k + 2) s''
              else spec_unquoted_semi_go false (k + 1) s'
          | [] => None
          end
        else spec_unquoted_semi_go true (k + 1) s'
      else if ascii_eqb c ch_quote then spec_unquoted_semi_go true (k + 1) s'
      else if ascii_eqb c ch_semi then Some k
      else spec_unquoted_semi_go false (k + 1) s'
  end.

Definition spec_unquoted_semi (s : str) : option nat :=
  spec_unquoted_semi_go false 0 s.

(** ** Runs of the tokenizer *)

(** The states the loop of [parse_values_blob] passes through on [blob]. *)
Inductive reaches (blob : str) : pstate -> Prop :=
| reaches_init : reaches blob pstate_init
| reaches_step st st' :
    reaches blob st -> i st < length blob -> loop_body blob st = Ok st' ->
    reaches blob st'.

(** The iteration at [st] reads a [)] outside a string at depth 1: the
    transition of [depth] from 1 to 0. *)
Definition closes_row (blob : str) (st : pstate) : bool :=
  negb (in_str st) && bool_decide (blob !! i st = Some ch_rparen)
  && (depth st =? 1)%Z.

(** ** Lines and statements of a dump *)

(** [line = raw.rstrip("\n")]. *)
Definition line_of (raw : str) : str := Py.rstrip_chars [ch_nl] raw.

(** The line starts a statement of [table]. *)
Definition opens_statement (table raw : str) : bool :=
  Py.startswith (insert_prefix table) (line_of raw).

(** The trimmed form of the line ends with [;]. *)
Definition closes_statement (raw : str) : bool := ends_statement (line_of raw).

(** The chunk accumulated from the raw lines of one statement. *)
Definition statement_text (raws : list str) : str :=
  Py.join [ch_nl] (map line_of raws).

(** What the recognizer has accumulated after the lines [pre]: while it is
    capturing, [acc] holds the lines of an opened statement that no line has
    closed yet. *)
Definition capture_inv (table : str) (pre : list str) (st : rstate) : Prop :=
  capturing st = true ->
  exists pre0 first more,
    pre = pre0 ++ first :: more /\
    opens_statement table first = true /\
    Forall (fun raw => closes_statement raw = false) (first :: more) /\
    acc st = map line_of (first :: more).

(** ** Sample inputs *)

Definition nl_line (s : string) : str := txt s ++ [ch_nl].

(** A dump with a comment line and one statement over three lines. *)
Definition sample_dump : list str :=
  [nl_line "-- dump";
   nl_line "INSERT INTO `t` (`a`, `b`) VALUES";
   nl_line "(1,'x'),";
   nl_line "(2,'y');"].

Definition sample_pair : list str * str :=
  ([txt "a"; txt "b"], [ch_nl] ++ txt "(1,'x')," ++ [ch_nl] ++ txt "(2,'y')").

(** A statement whose quoted literal runs over two lines, the first of
    which ends with [;]. *)
Definition quoted_semi_dump : list str :=
  [nl_line "INSERT INTO `t` (a) VALUES ('x;"; nl_line "y');"].

(** A statement with the keyword misspelt. *)
Definition valus_line : str := nl_line "INSERT INTO `t` (`a`) VALUS (1);".

(** Two sources with the same id. *)
Definition source_A : csvrow :=
  [(txt "id", Some (txt "7")); (txt "title", Some (txt "A"))].
Definition source_B : csvrow :=
  [(txt "id", Some (txt "7")); (txt "title", Some (txt "B"))].

(** A file system with the chants file only. *)
Definition chants_only : fsys :=
  FSys {[ txt "extract/csv/gregobase_chants.csv" := txt "id,incipit" ]} ∅.

(** ** The tokenizer as a scan of the remaining text

    The loop of [parse_values_blob] read off the text that is left: one
    iteration reads the character [ch] and looks at the character [nxt]
    after it ([None] at the end of the blob).  [loop_scan_text] below shows
    that the loop computes [scan_text]. *)

(** The state one iteration leaves. *)
Definition step_char (ch : ascii) (nxt : option ascii) (st : pstate) : pstate :=
  let '(PState rows cur_row cur depth in_str i) := st in
  if in_str then
    if ascii_eqb ch ch_backslash then
      match nxt with
      | Some esc =>
          PState rows cur_row (cur ++ [mapping_get esc]) depth in_str (i + 2)
      | None => PState rows cur_row (cur ++ [ch_backslash]) depth in_str (i + 1)
      end
    else if ascii_eqb ch ch_quote then
      if bool_decide (nxt = Some ch_quote) then
        PState rows cur_row (cur ++ [ch_quote]) depth in_str (i + 2)
      else PState rows cur_row cur depth false (i + 1)
    else PState rows cur_row (cur ++ [ch]) depth in_str (i + 1)
  else if ascii_eqb ch ch_quote then PState rows cur_row cur depth true (i + 1)
  else if ascii_eqb ch ch_lparen then
    if (depth =? 0)%Z then PState rows [] [] (depth + 1)%Z in_str (i + 1)
    else PState rows cur_row (cur ++ [ch]) (depth + 1)%Z in_str (i + 1)
  else if ascii_eqb ch ch_rparen then
    if (depth - 1 =? 0)%Z then
      PState (rows ++ [cur_row ++ [sql_token_to_text (Py.strip cur)]]) [] []
        (depth - 1)%Z in_str (i + 1)
    else PState rows cur_row (cur ++ [ch]) (depth - 1)%Z in_str (i + 1)
  else if ascii_eqb ch ch_comma && (depth =? 1)%Z then
    PState rows (cur_row ++ [sql_token_to_text (Py.strip cur)]) [] depth in_str
      (i + 1)
  else if ascii_eqb ch ch_semi && (depth =? 0)%Z then
    PState rows cur_row cur depth in_str (i + 1)
  else PState rows cur_row (cur ++ [ch]) depth in_str (i + 1).

(** The iteration consumes [nxt] as well: an escape pair or a doubled quote
    inside a string. *)
Definition takes_two (ch : ascii) (nxt : option ascii) (st : pstate) : bool :=
  match nxt with
  | Some e =>
      in_str st
      && (ascii_eqb ch ch_backslash
          || (ascii_eqb ch ch_quote && ascii_eqb e ch_quote))
  | None => false
  end.

Fixpoint scan_text (s : str) (st : pstate) : pstate :=
  match s with
  | [] => st
  | ch :: s' =>
      match s' with
      | [] => step_char ch None st
      | e :: s'' =>
          if takes_two ch (Some e) st
          then scan_text s'' (step_char ch (Some e) st)
          else scan_text s' (step_char ch (Some e) st)
      end
  end.

(** The rows of a blob, as a total function. *)
Definition tokens (blob : str) : list (list str) :=
  rows (scan_text blob pstate_init).

(** ** Well-formed tuples

    The text of a field as a dump writes it: bare text, or a quoted literal
    with bare text (usually spaces) around it. *)
Record field_src : Type := FieldSrc {
  lead : str;
  quoted : option str;
  trail : str
}.

(** Characters that are plain outside a string inside a tuple, inside a
    quoted literal, and between tuples. *)
Definition bare_char (c : ascii) : bool :=
  negb (Py.member [ch_quote; ch_lparen; ch_rparen; ch_comma] c).
Definition literal_char (c : ascii) : bool :=
  negb (Py.member [ch_quote; ch_backslash] c).
Definition sep_char (c : ascii) : bool :=
  negb (Py.member [ch_quote; ch_lparen; ch_rparen] c).

Definition field_ok (f : field_src) : bool :=
  forallb bare_char (lead f) && forallb bare_char (trail f)
  && match quoted f with Some q => forallb literal_char q | None => true end.

Definition field_text (f : field_src) : str :=
  lead f
  ++ match quoted f with
     | Some q => ch_quote :: q ++ [ch_quote]
     | None => []
     end
  ++ trail f.

(** The characters of the field without the quotes. *)
Definition field_content (f : field_src) : str :=
  lead f ++ default [] (quoted f) ++ trail f.

Definition field_value (f : field_src) : str :=
  sql_token_to_text (Py.strip (field_content f)).

Definition tuple_text (fs : list field_src) : str :=
  ch_lparen :: Py.join [ch_comma] (map field_text fs) ++ [ch_rparen].

Definition tuple_ok (fs : list field_src) : bool :=
  negb (bool_decide (fs = [])) && forallb field_ok fs.

(** The scan is outside every tuple and string, with the rows [rs]. *)
Definition at_top (rs : list (list str)) (st : pstate) : Prop :=
  rows st = rs /\ depth st = 0%Z /\ in_str st = false.

(** The scan is inside a tuple, with the fields [cr] done and [cu] read of
    the current one; [ins] tells whether it is inside a string. *)
Definition in_tuple (ins : bool) (rs : list (list str)) (cr : list str)
  (cu : str) (st : pstate) : Prop :=
  rows st = rs /\ cur_row st = cr /\ cur st = cu /\ depth st = 1%Z /\
  in_str st = ins.

(** A field as the tokenizer leaves it: trimming does not change it, and it
    is not NULL in any case. *)
Definition normal_field (f : str) : Prop :=
  Py.strip f = f /\ Py.upper f <> txt "NULL".

(** Two scans that agree on everything the rows still depend on: while the
    depth is at most 0 the buffers are reset before they are used. *)
Definition rows_related (r0 : list (list str)) (st st' : pstate) : Prop :=
  rows st = r0 ++ rows st' /\ depth st = depth st' /\
  in_str st = in_str st' /\
  ((depth st' <= 0)%Z \/ (cur st = cur st' /\ cur_row st = cur_row st')).

(** The number of closing parentheses of a text. *)
Definition count_rparen (s : str) : nat :=
  length (filter (fun c => c = ch_rparen) s).

(** ** Well-formed dumps

    A block of a dump: lines that open no statement of the table, then one
    statement, from the line that opens it to the first line that closes
    it. *)
Record block : Type := Block {
  skipped : list str;
  opened : list str;
  closing : str
}.

Definition block_lines (b : block) : list str :=
  skipped b ++ opened b ++ [closing b].

Definition block_ok (table : str) (b : block) : bool :=
  forallb (fun raw => negb (opens_statement table raw)) (skipped b)
  && opens_statement table (hd (closing b) (opened b))
  && forallb (fun raw => negb (closes_statement raw)) (opened b)
  && closes_statement (closing b).

Definition block_yield (b : block) : list (list str * str) :=
  yield_split (statement_text (opened b ++ [closing b])).

(** ** Column lists *)

(** What [_split_insert] makes of one piece of the column list. *)
Definition clean_column (c : str) : str :=
  Py.strip_chars [ch_backtick] (Py.strip c).

(** A column list as a dump writes it: the names in backticks, separated by
    a comma and a space. *)
Definition column_list_text (names : list str) : str :=
  Py.join [ch_comma; ch_space]
    (map (fun n => ch_backtick :: n ++ [ch_backtick]) names).

(** A name that can be written so: no comma, no closing parenthesis, and no
    backtick at either end. *)
Definition column_name_ok (n : str) : Prop :=
  (ch_comma ∉ n) /\ (ch_rparen ∉ n) /\
  head n <> Some ch_backtick /\ last n <> Some ch_backtick.

(** ** The join *)

(** Lines 55-61: the entry made of one bridge row. *)
Definition bridge_entry (sources_by_id : gmap str csvrow) (cs : csvrow)
  : jval :=
  let src_id := row_get cs (txt "source") in
  JDict [ (txt "id", jopt src_id);
          (txt "page", jopt (row_get cs (txt "page")));
          (txt "sequence", jopt (row_get cs (txt "sequence")));
          (txt "extent", jopt (row_get cs (txt "extent")));
          (txt "source",
            match lookup_source sources_by_id src_id with
            | Some s => jrow s
            | None => JNull
            end) ].

(** Line 65: [Path(args.output) if args.output else OUTPUT_PATH]. *)
Definition resolve_out_path (OUTPUT_PATH : str) (a : args) : str :=
  match arg_output a with
  | Some p => if bool_decide (p = []) then OUTPUT_PATH else p
  | None => OUTPUT_PATH
  end.

(** ** A statement as a dump writes it on one line *)
Definition statement_line (table : str) (names : list str) (sep : str)
  (tuples : list (list field_src)) : str :=
  insert_prefix table ++ txt " (" ++ column_list_text names
  ++ txt ") VALUES " ++ Py.join sep (map tuple_text tuples) ++ txt ";"
  ++ [ch_nl].

(** The text [main] writes for the contents [c1], [c2], [c3] of the chants,
    sources and bridge files: one line per chant. *)
Definition jsonl_content (dict_reader : str -> list csvrow)
  (json_dumps : jval -> str) (c1 c2 c3 : str) : str :=
  concat
    (map (fun chant =>
            json_dumps
              (chant_obj
                 (group_sources (index_sources (dict_reader c2))
                    (dict_reader c3)) chant) ++ [ch_nl])
       (dict_reader c1)).

(** Lines 25-27: the three input paths. *)
Definition chants_path (CSV_DIR : str) : str :=
  path_join CSV_DIR (txt "gregobase_chants.csv").
Definition sources_path (CSV_DIR : str) : str :=
  path_join CSV_DIR (txt "gregobase_sources.csv").
Definition bridge_path (CSV_DIR : str) : str :=
  path_join CSV_DIR (txt "gregobase_chant_sources.csv").

(** ** More sample inputs *)

Definition bare (s : string) : field_src := FieldSrc (txt s) None [].
Definition lit (ld q : string) : field_src :=
  FieldSrc (txt ld) (Some (txt q)) [].

(** Two tuples: [(1, 'a,b', NULL)] and [(2,'x;(y)',)]. *)
Definition sample_tuples : list (list field_src) :=
  [[bare "1"; lit " " "a,b"; bare " NULL"];
   [bare "2"; lit "" "x;(y)"; bare ""]].

Definition sample_block : block :=
  Block [nl_line "-- dump"]
    [nl_line "INSERT INTO `t` (`a`, `b`) VALUES"; nl_line "(1,'x'),"]
    (nl_line "(2,'y');").

(** A file system with the three CSV files. *)
Definition three_csv : fsys :=
  FSys {[ txt "csv/gregobase_chants.csv" := txt "id";
          txt "csv/gregobase_sources.csv" := txt "id";
          txt "csv/gregobase_chant_sources.csv" := txt "chant_id" ]} ∅.

Definition sample_args : args := Args (Some (txt "out/chants.jsonl")) false false.

(** * Theorems *)

(** ** The tokenizer *)

Lemma char_at_lt (s : str) (k : nat) :
  k < length s -> exists c, s !! k = Some c /\ char_at s k = Ok c.
Proof.
  intros Hk. destruct (lookup_lt_is_Some_2 s k Hk) as [c Hc].
  exists c. unfold char_at. rewrite Hc. done.
Qed.

Lemma char_at_Some (s : str) (k : nat) (c : ascii) :
  s !! k = Some c -> char_at s k = Ok c.
Proof. intros H. unfold char_at. by rewrite H. Qed.

(** The guarded read of [nxt] never raises. *)
Lemma peek_ok (blob : str) (k : nat) :
  exists nxt : str,
    (if k + 1 <? length blob then (c ← char_at blob (k + 1); Ok [c])
     else Ok []) = Ok nxt /\
    nxt = match blob !! (k + 1) with Some c => [c] | None => [] end.
Proof.
  destruct (k + 1 <? length blob) eqn:E.
  - apply Nat.ltb_lt in E. destruct (char_at_lt blob _ E) as (c & Hc & Hat).
    rewrite Hat, Hc. eexists; split; reflexivity.
  - apply Nat.ltb_ge in E. rewrite (lookup_ge_None_2 blob (k + 1) E).
    eexists; split; reflexivity.
Qed.

Lemma ascii_eqb_eq (a b : ascii) : ascii_eqb a b = true <-> a = b.
Proof. unfold ascii_eqb. apply bool_decide_eq_true. Qed.

(** C4: tokenizing [('a','b,c',NULL,123)] gives the single row
    [a], [b,c], the empty string, [123]: the comma inside the quoted string
    does not split, the unquoted NULL becomes the empty string and the number
    stays text. *)
Theorem parse_values_blob_abc :
  parse_values_blob (txt "('a','b,c',NULL,123)")
  = Ok [[txt "a"; txt "b,c"; []; txt "123"]].
Proof. vm_compute. reflexivity. Qed.

(** C5: inside a quoted string a backslash and the character after it are
    consumed together and append the character the table gives (n, r, t to
    newline, carriage return, tab; every other character to itself); two
    quotes are consumed together, append one quote and stay in the string;
    so [('it''s','line1\nline2')] gives the single row [it's] and
    [line1], a newline, [line2]. *)
Theorem in_string_escapes :
  (mapping_get "n" = ch_nl /\ mapping_get "r" = ch_cr /\
   mapping_get "t" = ch_tab /\ mapping_get ch_quote = ch_quote /\
   mapping_get ch_dquote = ch_dquote /\
   mapping_get ch_backslash = ch_backslash /\
   forall c : ascii, c <> "n"%char -> c <> "r"%char -> c <> "t"%char ->
     mapping_get c = c) /\
  (forall blob rows cur_row cur depth k esc,
     blob !! k = Some ch_backslash -> blob !! (k + 1) = Some esc ->
     loop_body blob (PState rows cur_row cur depth true k)
     = Ok (PState rows cur_row (cur ++ [mapping_get esc]) depth true (k + 2))) /\
  (forall blob rows cur_row cur depth k,
     blob !! k = Some ch_quote -> blob !! (k + 1) = Some ch_quote ->
     loop_body blob (PState rows cur_row cur depth true k)
     = Ok (PState rows cur_row (cur ++ [ch_quote]) depth true (k + 2))) /\
  parse_values_blob (txt "('it''s','line1\nline2')")
  = Ok [[txt "it's"; txt "line1" ++ [ch_nl] ++ txt "line2"]].
Proof.
  split; [|split; [|split]].
  - repeat split; try reflexivity.
    intros c Hn Hr Ht. unfold mapping_get, ascii_eqb.
    repeat case_bool_decide; done.
  - intros blob rows0 cur_row0 cur0 depth0 k esc Hk Hk1.
    assert (Hlt : k + 1 < length blob) by (eapply lookup_lt_Some; eauto).
    apply Nat.ltb_lt in Hlt.
    unfold loop_body, char_at. rewrite Hk, Hk1, Hlt. reflexivity.
  - intros blob rows0 cur_row0 cur0 depth0 k Hk Hk1.
    assert (Hlt : k + 1 < length blob) by (eapply lookup_lt_Some; eauto).
    apply Nat.ltb_lt in Hlt.
    unfold loop_body, char_at. rewrite Hk, Hk1, Hlt. reflexivity.
  - vm_compute. reflexivity.
Qed.

(** One iteration never raises, advances [i], and appends a row exactly
    when it closes one. *)
Lemma loop_body_ok (blob : str) (st : pstate) :
  i st < length blob ->
  exists st',
    loop_body blob st = Ok st' /\ i st < i st' /\
    rows st' =
      (if closes_row blob st
       then rows st ++ [cur_row st ++ [sql_token_to_text (Py.strip (cur st))]]
       else rows st) /\
    (closes_row blob st = true -> depth st' = 0%Z).
Proof.
  destruct st as [rs cr cu d ins k]. cbn [i rows cur_row cur depth in_str].
  intros Hlt. destruct (char_at_lt blob k Hlt) as (ch & Hch & Hat).
  unfold loop_body, closes_row. cbn [i rows cur_row cur depth in_str].
  rewrite Hat, Hch. cbn [mbind res_bind].
  assert (Hnxt : exists nxt,
    (if k + 1 <? length blob then (c ← char_at blob (k + 1); Ok [c])
     else Ok [])
    = Ok nxt /\
    ((k + 1 <? length blob) = true -> exists e, char_at blob (k + 1) = Ok e)).
  { destruct (k + 1 <? length blob) eqn:E.
    - apply Nat.ltb_lt in E. destruct (char_at_lt blob _ E) as (c & _ & Hc).
      rewrite Hc. eexists; split; [reflexivity|eauto].
    - eexists; split; [reflexivity|done]. }
  destruct Hnxt as (nxt & -> & Hesc). cbn [mbind res_bind].
  unfold ascii_eqb.
  repeat (case_bool_decide || case_match); simplify_eq.
  all: try (destruct Hesc as [e ->]; [done|]; cbn [mbind res_bind]).
  all: eexists; split; [reflexivity|]; cbn [i rows depth]; split; [lia|].
  all: repeat match goal with
       | H : context [negb _ && _] |- _ => progress cbn [negb andb] in H
       | H : _ && _ = true |- _ => apply andb_prop in H; destruct H
       | H : (_ =? _)%Z = true |- _ => apply Z.eqb_eq in H
       | H : (_ =? _)%Z = false |- _ => apply Z.eqb_neq in H
       | H : negb _ = true |- _ => apply negb_true_iff in H
       end.
  all: try done.
  all: try lia.
  all: try (split; [reflexivity|intros; lia]).
  all: try (split; [reflexivity|intros; done]).
Qed.

Lemma loop_fuel_irrelevant (blob : str) (f1 : nat) :
  forall (f2 : nat) (st : pstate),
    length blob - i st <= f1 -> length blob - i st <= f2 ->
    loop f1 blob st = loop f2 blob st.
Proof.
  induction f1 as [|f1 IH]; intros f2 st H1 H2.
  - destruct f2; simpl; destruct (i st <? length blob) eqn:E; try reflexivity;
      apply Nat.ltb_lt in E; lia.
  - destruct f2; simpl; destruct (i st <? length blob) eqn:E; try reflexivity;
      apply Nat.ltb_lt in E; [lia|].
    destruct (loop_body_ok blob st E) as (st' & -> & Hi & _).
    cbn [mbind res_bind]. apply IH; lia.
Qed.

Lemma loop_ok (blob : str) (fuel : nat) :
  forall st : pstate,
    length blob - i st <= fuel ->
    exists st',
      loop fuel blob st = Ok st' /\ length blob <= i st' /\
      rows st `prefix_of` rows st' /\
      (reaches blob st -> reaches blob st').
Proof.
  induction fuel as [|fuel IH]; intros st Hf.
  - exists st. simpl. destruct (i st <? length blob) eqn:E.
    + apply Nat.ltb_lt in E. lia.
    + apply Nat.ltb_ge in E. done.
  - simpl. destruct (i st <? length blob) eqn:E.
    + apply Nat.ltb_lt in E.
      destruct (loop_body_ok blob st E) as (st1 & Hb & Hi & Hrows & _).
      rewrite Hb. cbn [mbind res_bind].
      destruct (IH st1) as (st' & Hl & Hn & Hp & Hr); [lia|].
      exists st'. repeat split; try done.
      * etrans; [|exact Hp]. rewrite Hrows.
        destruct (closes_row blob st); [by apply prefix_app_r|done].
      * intros Hreach. apply Hr. by eapply reaches_step.
    + apply Nat.ltb_ge in E. exists st. done.
Qed.

Lemma reaches_same_run (blob : str) (st : pstate) :
  reaches blob st ->
  loop (length blob - i st) blob st = loop (length blob) blob pstate_init.
Proof.
  induction 1 as [|st st' Hr IH Hlt Hb].
  - simpl. by rewrite Nat.sub_0_r.
  - rewrite <- IH.
    destruct (loop_body_ok blob st Hlt) as (st1 & Hb' & Hi & _).
    assert (st1 = st') by congruence. subst st1.
    destruct (length blob - i st) as [|m] eqn:Em; [lia|].
    simpl. apply Nat.ltb_lt in Hlt. rewrite Hlt, Hb. cbn [mbind res_bind].
    apply loop_fuel_irrelevant; lia.
Qed.



Lemma in_string_escapes_witness :
  loop_body (txt "'a\tb'") (PState [] [] (txt "a") 1 true 2)
  = Ok (PState [] [] (txt "a" ++ [ch_tab]) 1 true 4).
Proof.
  exact (proj1 (proj2 in_string_escapes) (txt "'a\tb'") [] [] (txt "a") 1%Z 2
           "t"%char eq_refl eq_refl).
Defined.

(** ** NULL mapping *)

Lemma upper_char_N (c : ascii) :
  Py.upper_char c = "N"%char <-> c = "n"%char \/ c = "N"%char.
Proof.
  destruct c as [[] [] [] [] [] [] [] []]; vm_compute;
    (split; [intros H; first [discriminate H | auto] | intros [H|H]; first [discriminate H | reflexivity]]).
Qed.

Lemma upper_char_U (c : ascii) :
  Py.upper_char c = "U"%char <-> c = "u"%char \/ c = "U"%char.
Proof.
  destruct c as [[] [] [] [] [] [] [] []]; vm_compute;
    (split; [intros H; first [discriminate H | auto] | intros [H|H]; first [discriminate H | reflexivity]]).
Qed.

Lemma upper_char_L (c : ascii) :
  Py.upper_char c = "L"%char <-> c = "l"%char \/ c = "L"%char.
Proof.
  destruct c as [[] [] [] [] [] [] [] []]; vm_compute;
    (split; [intros H; first [discriminate H | auto] | intros [H|H]; first [discriminate H | reflexivity]]).
Qed.

Lemma upper_is_NULL (token : str) :
  Py.upper token = txt "NULL" <->
  exists a b c d, token = [a; b; c; d] /\
    (a = "n"%char \/ a = "N"%char) /\ (b = "u"%char \/ b = "U"%char) /\
    (c = "l"%char \/ c = "L"%char) /\ (d = "l"%char \/ d = "L"%char).
Proof.
  change (txt "NULL") with ["N"; "U"; "L"; "L"]%char. unfold Py.upper. split.
  - intros H. destruct token as [|a [|b [|c [|d [|]]]]]; simplify_eq/=.
    exists a, b, c, d. rewrite <- upper_char_N, <- upper_char_U, <- !upper_char_L.
    done.
  - intros (a & b & c & d & -> & Ha & Hb & Hc & Hd). simpl.
    apply upper_char_N in Ha. apply upper_char_U in Hb.
    apply upper_char_L in Hc, Hd. congruence.
Qed.




(** ** The recognizer *)

Lemma line_step_skip (table : str) (st : rstate) (raw : str) :
  capturing st = false -> opens_statement table raw = false ->
  line_step table st raw = (st, []).
Proof.
  unfold line_step, opens_statement, line_of. intros -> ->. reflexivity.
Qed.

Lemma line_step_single (table : str) (st : rstate) (raw : str) :
  capturing st = false -> opens_statement table raw = true ->
  closes_statement raw = true ->
  line_step table st raw = (rstate_init, yield_split (statement_text [raw])).
Proof.
  unfold line_step, opens_statement, closes_statement, line_of.
  intros -> -> ->. reflexivity.
Qed.

Lemma line_step_open (table : str) (st : rstate) (raw : str) :
  capturing st = false -> opens_statement table raw = true ->
  closes_statement raw = false ->
  line_step table st raw = (RState [line_of raw] true, []).
Proof.
  unfold line_step, opens_statement, closes_statement, line_of.
  intros -> -> ->. reflexivity.
Qed.

Lemma line_step_more (table : str) (st : rstate) (raw : str) :
  capturing st = true -> closes_statement raw = false ->
  line_step table st raw = (RState (acc st ++ [line_of raw]) true, []).
Proof.
  unfold line_step, closes_statement, line_of. intros E ->. rewrite E.
  reflexivity.
Qed.

Lemma line_step_close (table : str) (st : rstate) (raw : str) :
  capturing st = true -> closes_statement raw = true ->
  line_step table st raw
  = (rstate_init, yield_split (Py.join [ch_nl] (acc st ++ [line_of raw]))).
Proof.
  unfold line_step, closes_statement, line_of. intros -> ->. reflexivity.
Qed.

Lemma scan_cons (table : str) (st : rstate) (raw : str) (fp : list str) :
  scan table st (raw :: fp)
  = ((scan table (line_step table st raw).1 fp).1,
     (line_step table st raw).2 ++ (scan table (line_step table st raw).1 fp).2).
Proof.
  simpl. destruct (line_step table st raw) as [st1 ys].
  simpl. destruct (scan table st1 fp). reflexivity.
Qed.

Lemma scan_app (table : str) (fp1 fp2 : list str) :
  forall st : rstate,
    scan table st (fp1 ++ fp2)
    = ((scan table (scan table st fp1).1 fp2).1,
       (scan table st fp1).2 ++ (scan table (scan table st fp1).1 fp2).2).
Proof.
  induction fp1 as [|raw fp1 IH]; intros st.
  - simpl. by destruct (scan table st fp2).
  - rewrite <- app_comm_cons, !scan_cons, IH. simpl. by rewrite app_assoc.
Qed.

Lemma scan_skip (table : str) (skip : list str) :
  forall st : rstate,
    capturing st = false ->
    Forall (fun raw => opens_statement table raw = false) skip ->
    scan table st skip = (st, []).
Proof.
  induction skip as [|raw skip IH]; intros st Hc Hs; [done|].
  inversion Hs; subst. rewrite scan_cons, line_step_skip by done. simpl.
  by rewrite IH.
Qed.

Lemma scan_more (table : str) (more : list str) :
  forall st : rstate,
    capturing st = true ->
    Forall (fun raw => closes_statement raw = false) more ->
    scan table st more = (RState (acc st ++ map line_of more) true, []).
Proof.
  induction more as [|raw more IH]; intros st Hc Hm.
  - simpl. rewrite app_nil_r. destruct st; simpl in *; by subst.
  - inversion Hm; subst. rewrite scan_cons, line_step_more by done. simpl.
    rewrite IH by done. simpl. by rewrite <- app_assoc.
Qed.

(** A statement, from the line that opens it to the first line that closes
    it, read from the idle state. *)
Lemma scan_statement (table : str) (st : rstate) (open : list str) (last : str) :
  capturing st = false ->
  opens_statement table (hd last open) = true ->
  Forall (fun raw => closes_statement raw = false) open ->
  closes_statement last = true ->
  scan table st (open ++ [last])
  = (rstate_init, yield_split (statement_text (open ++ [last]))).
Proof.
  intros Hc Ho Hm Hl. destruct open as [|first more]; simpl in Ho.
  - simpl app. rewrite scan_cons, line_step_single by done. simpl.
    by rewrite app_nil_r.
  - inversion Hm; subst. rewrite <- app_comm_cons, scan_cons.
    rewrite line_step_open by done. cbn [fst snd].
    rewrite scan_app, (scan_more table more) by done. cbn [fst snd].
    rewrite scan_cons, line_step_close by done. simpl.
    rewrite app_nil_r. unfold statement_text. simpl map.
    by rewrite map_app.
Qed.

Lemma yield_split_elem (chunk : str) (p : list str * str) :
  p ∈ yield_split chunk -> _split_insert chunk = (Some p.1, Some p.2).
Proof.
  unfold yield_split. destruct (_split_insert chunk) as [[cols|] [values|]];
    intros H; try (by apply elem_of_nil in H).
  apply list_elem_of_singleton in H. by subst.
Qed.

(** Every pair yielded from a state that satisfies [capture_inv] comes from
    a statement delimited by lines. *)
Lemma scan_sound (table : str) (p : list str * str) (fp : list str) :
  forall (pre : list str) (st : rstate),
    capture_inv table pre st ->
    p ∈ (scan table st fp).2 ->
    exists pre' open last rest,
      pre ++ fp = pre' ++ open ++ last :: rest /\
      opens_statement table (hd last open) = true /\
      Forall (fun raw => closes_statement raw = false) open /\
      closes_statement last = true /\
      _split_insert (statement_text (open ++ [last])) = (Some p.1, Some p.2).
Proof.
  induction fp as [|raw fp IH]; intros pre st Hinv Hp.
  - simpl in Hp. by apply elem_of_nil in Hp.
  - rewrite scan_cons in Hp. cbn [snd] in Hp. apply elem_of_app in Hp.
    replace (pre ++ raw :: fp) with ((pre ++ [raw]) ++ fp)
      by (by rewrite <- app_assoc).
    specialize (IH (pre ++ [raw])).
    destruct (capturing st) eqn:Hc.
    + destruct (Hinv Hc) as (pre0 & first & more & -> & Ho & Hm & Hacc).
      destruct (closes_statement raw) eqn:Hl.
      * rewrite line_step_close in Hp by done. cbn [fst snd] in Hp.
        destruct Hp as [Hp|Hp].
        -- exists pre0, (first :: more), raw, fp. split; [|split; [|split; [|split]]];
             try done.
           ++ by rewrite <- !app_assoc.
           ++ apply yield_split_elem in Hp. rewrite <- Hp. f_equal.
              unfold statement_text. by rewrite map_app, Hacc.
        -- apply (IH rstate_init); [|done]. intros ?; done.
      * rewrite line_step_more in Hp by done. cbn [fst snd] in Hp.
        destruct Hp as [Hp|Hp]; [by apply elem_of_nil in Hp|].
        apply IH in Hp; [done|]. intros _.
        exists pre0, first, (more ++ [raw]). split; [|split; [|split]].
        -- by rewrite <- !app_assoc.
        -- done.
        -- rewrite app_comm_cons. apply Forall_app. split; [done|].
           by constructor.
        -- cbn [acc]. rewrite Hacc. by rewrite app_comm_cons, map_app.
    + destruct (opens_statement table raw) eqn:Ho.
      * destruct (closes_statement raw) eqn:Hl.
        -- rewrite line_step_single in Hp by done. cbn [fst snd] in Hp.
           destruct Hp as [Hp|Hp].
           ++ exists pre, [], raw, fp. split; [|split; [|split; [|split]]];
                try done.
              ** by rewrite <- !app_assoc.
              ** by apply yield_split_elem in Hp.
           ++ apply (IH rstate_init); [|done]. intros ?; done.
        -- rewrite line_step_open in Hp by done. cbn [fst snd] in Hp.
           destruct Hp as [Hp|Hp]; [by apply elem_of_nil in Hp|].
           apply IH in Hp; [done|]. intros _.
           exists pre, raw, []. split; [|split; [|split]]; try done.
           by repeat constructor.
      * rewrite line_step_skip in Hp by done. cbn [fst snd] in Hp.
        destruct Hp as [Hp|Hp]; [by apply elem_of_nil in Hp|].
        apply IH in Hp; [done|]. intros Hc'. congruence.
Qed.




(** *** Searching *)

Lemma startswith_app (p s : str) :
  Py.startswith p s = true -> exists v, s = p ++ v.
Proof.
  revert s. induction p as [|a p IH]; intros s H; [by exists s|].
  destruct s as [|b s]; [done|]. simpl in H.
  apply andb_prop in H as [Hab Hps]. apply ascii_eqb_eq in Hab. subst.
  destruct (IH _ Hps) as [v ->]. by exists v.
Qed.

Lemma find_None (sub s : str) :
  (forall u v, s <> u ++ sub ++ v) -> Py.find sub s = None.
Proof.
  induction s as [|x s IH]; intros H.
  - simpl. destruct (Py.startswith sub []) eqn:E; [|done].
    apply startswith_app in E as [v E]. by destruct (H [] v).
  - simpl. destruct (Py.startswith sub (x :: s)) eqn:E.
    + apply startswith_app in E as [v E]. by destruct (H [] v).
    + rewrite IH; [done|]. intros u v ->. by apply (H (x :: u) v).
Qed.

Lemma startswith_refl_app (p v : str) : Py.startswith p (p ++ v) = true.
Proof.
  induction p as [|a p IH]; [done|]. simpl. rewrite IH. unfold ascii_eqb.
  by rewrite bool_decide_eq_true_2.
Qed.

Lemma find_None_inv (sub s : str) :
  Py.find sub s = None -> forall u v, s <> u ++ sub ++ v.
Proof.
  induction s as [|x s IH]; intros H u v E.
  - destruct sub; [done|]. destruct u; done.
  - simpl in H. destruct (Py.startswith sub (x :: s)) eqn:Es; [done|].
    destruct u as [|y u].
    + simpl in E. by rewrite E, startswith_refl_app in Es.
    + injection E as -> E. destruct (Py.find sub s) eqn:Ef; [done|].
      by apply (IH eq_refl u v).
Qed.

Lemma find_char_None (c : ascii) (s : str) : c ∉ s -> Py.find [c] s = None.
Proof.
  intros H. apply find_None. intros u v ->. apply H.
  apply elem_of_app. right. by left.
Qed.

Lemma find_char_first (c : ascii) (a b : str) :
  c ∉ a -> Py.find [c] (a ++ c :: b) = Some (length a).
Proof.
  induction a as [|x a IH]; intros H.
  - simpl. unfold ascii_eqb. by rewrite bool_decide_eq_true_2.
  - apply not_elem_of_cons in H as [Hx Ha]. simpl. unfold ascii_eqb.
    rewrite bool_decide_eq_false_2 by done. simpl.
    fold (Py.find [c] (a ++ c :: b)). by rewrite IH.
Qed.

Lemma drop_app_cons {A} (a b : list A) (x : A) :
  drop (length a + 1) (a ++ x :: b) = b.
Proof.
  rewrite drop_app_ge by lia. replace (length a + 1 - length a) with 1 by lia.
  done.
Qed.

(** When [_split_insert] gives up. *)
Lemma split_insert_None (chunk : str) :
  ch_lparen ∉ chunk \/
  (exists a b,
     chunk = a ++ ch_lparen :: b /\ (ch_lparen ∉ a) /\ (ch_rparen ∉ b)) \/
  (exists a b rest,
     chunk = a ++ ch_lparen :: b ++ ch_rparen :: rest /\
     (ch_lparen ∉ a) /\ (ch_rparen ∉ b) /\
     forall u v, Py.upper rest <> u ++ txt "VALUES" ++ v) ->
  _split_insert chunk = (None, None).
Proof.
  unfold _split_insert, Py.index_from.
  intros [H|[(a & b & -> & Ha & Hb)|(a & b & rest & -> & Ha & Hb & Hv)]].
  - rewrite drop_0, find_char_None by done. done.
  - rewrite drop_0, find_char_first by done. cbn [fmap option_fmap option_map].
    rewrite Nat.add_0_l, drop_app_cons, find_char_None by done. done.
  - rewrite drop_0, find_char_first by done. cbn [fmap option_fmap option_map].
    rewrite Nat.add_0_l, drop_app_cons, find_char_first by done.
    cbn [fmap option_fmap option_map].
    replace (a ++ ch_lparen :: b ++ ch_rparen :: rest)
      with ((a ++ ch_lparen :: b) ++ ch_rparen :: rest)
      by (by rewrite <- app_assoc).
    replace (length a + 1 + length b + 1)
      with (length (a ++ ch_lparen :: b) + 1)
      by (rewrite length_app; simpl; lia).
    rewrite drop_app_cons, find_None by done. done.
Qed.

(** A statement read after [pre] has left the recognizer idle. *)
Lemma iter_statement (table : str) (pre open : list str) (last : str)
    (rest : list str) :
  capturing (scan table rstate_init pre).1 = false ->
  opens_statement table (hd last open) = true ->
  Forall (fun raw => closes_statement raw = false) open ->
  closes_statement last = true ->
  (scan table rstate_init (pre ++ open ++ [last])).1 = rstate_init /\
  iter_insert_chunks (pre ++ open ++ last :: rest) table
  = iter_insert_chunks pre table
    ++ yield_split (statement_text (open ++ [last]))
    ++ iter_insert_chunks rest table.
Proof.
  intros Hc Ho Hm Hl. split.
  - rewrite scan_app. cbn [fst]. by rewrite scan_statement.
  - unfold iter_insert_chunks at 1.
    replace (pre ++ open ++ last :: rest)
      with (pre ++ (open ++ [last]) ++ rest)
      by (by rewrite <- (app_assoc open)).
    rewrite scan_app, (scan_app table (open ++ [last]) rest). cbn [fst snd].
    rewrite scan_statement by done. cbn [fst snd].
    fold (iter_insert_chunks pre table). fold (iter_insert_chunks rest table).
    done.
Qed.





(** ** Row alignment *)

Lemma alloc_spec (h : store) (v : list str) :
  h ⊆ (alloc h v).2 /\ (alloc h v).2 !! (alloc h v).1 = Some v /\
  h !! (alloc h v).1 = None.
Proof.
  unfold alloc. cbn [fst snd].
  assert (Hf : h !! fresh (dom h) = None)
    by (apply not_elem_of_dom, is_fresh).
  split; [by apply insert_subseteq|]. split; [by rewrite lookup_insert_eq|done].
Qed.

Lemma row_step_spec (header : list str) (h : store) (r : nat)
    (row : list str) :
  h !! r = Some row ->
  exists h1 r',
    row_step header h r = Some (h1, r') /\ h ⊆ h1 /\
    h1 !! r' = Some (align_row header row).
Proof.
  intros Hr. unfold row_step, align_row. rewrite Hr.
  cbn [mbind option_bind].
  destruct (negb (length row =? length header)).
  - destruct (length row <? length header).
    + pose proof (alloc_spec h
        (row ++ replicate (length header - length row) [])) as (Hs & Hl & _).
      destruct (alloc h _) as [l h2]. eauto.
    + pose proof (alloc_spec h (take (length header) row)) as (Hs & Hl & _).
      destruct (alloc h _) as [l h2]. eauto.
  - eauto.
Qed.

(** The loop writes the aligned content of every row and leaves every list
    of the store as it was. *)
Lemma row_loop_spec (header : list str) (rows : list nat)
    (contents : list (list str)) :
  forall h : store,
    Forall2 (fun r row => h !! r = Some row) rows contents ->
    exists h',
      row_loop header h rows = Some (h', map (align_row header) contents) /\
      h ⊆ h'.
Proof.
  revert contents. induction rows as [|r rows IH]; intros contents h Hall.
  - inversion Hall; subst. exists h. done.
  - inversion Hall as [|? row ? contents' Hr Hrest]; subst.
    destruct (row_step_spec header h r row Hr) as (h1 & r' & Hs & Hsub & Hl).
    destruct (IH contents' h1) as (h' & Hloop & Hsub').
    { eapply Forall2_impl; [exact Hrest|]. intros r0 row0 H0.
      exact (lookup_weaken _ _ _ _ H0 Hsub). }
    exists h'. split; [|by etrans].
    simpl. rewrite Hs. cbn [mbind option_bind]. rewrite Hl.
    cbn [mbind option_bind]. rewrite Hloop. done.
Qed.

(** C8: a row shorter than the header is written followed by empty fields up
    to the width of the header, a longer one is cut to its first fields, so
    every row written has the width of the header; the statement loop of
    [extract_table] writes the tokenizer's rows aligned in this way; and the
    row loop leaves every list object of the store, the tokenizer's rows
    among them, as it was. *)
Theorem align_row_pad_truncate (hdr : list str) :
  (forall row, length row < length hdr ->
     align_row hdr row
     = row ++ replicate (length hdr - length row) []) /\
  (forall row, length hdr < length row ->
     align_row hdr row = take (length hdr) row) /\
  (forall row, length (align_row hdr row) = length hdr) /\
  (forall st cols values_blob rows,
     parse_values_blob values_blob = Ok rows ->
     let hdr' := if wrote_header st then header st else cols in
     chunk_step st (cols, values_blob)
     = Ok (XState true hdr'
             ((if wrote_header st then written st else written st ++ [cols])
              ++ map (align_row hdr') rows))) /\
  (forall (h : store) rows contents,
     Forall2 (fun r row => h !! r = Some row) rows contents ->
     exists h',
       row_loop hdr h rows = Some (h', map (align_row hdr) contents) /\
       h ⊆ h' /\
       Forall2 (fun r row => h' !! r = Some row) rows contents).
Proof.
  split; [|split; [|split; [|split]]].
  - intros row H. unfold align_row.
    replace (length row =? length hdr) with false
      by (symmetry; apply Nat.eqb_neq; lia).
    replace (length row <? length hdr) with true
      by (symmetry; apply Nat.ltb_lt; lia).
    reflexivity.
  - intros row H. unfold align_row.
    replace (length row =? length hdr) with false
      by (symmetry; apply Nat.eqb_neq; lia).
    replace (length row <? length hdr) with false
      by (symmetry; apply Nat.ltb_ge; lia).
    reflexivity.
  - intros row. unfold align_row.
    destruct (length row =? length hdr) eqn:E; simpl.
    + by apply Nat.eqb_eq in E.
    + apply Nat.eqb_neq in E. destruct (length row <? length hdr) eqn:E'.
      * apply Nat.ltb_lt in E'. rewrite length_app, length_replicate. lia.
      * apply Nat.ltb_ge in E'. rewrite length_take. lia.
  - intros st cols values_blob rows0 Hp. unfold chunk_step. rewrite Hp.
    destruct st as [[] h w]; reflexivity.
  - intros h rows0 contents Hall.
    destruct (row_loop_spec hdr rows0 contents h Hall) as (h' & Hl & Hsub).
    exists h'. split; [done|]. split; [done|].
    eapply Forall2_impl; [exact Hall|]. intros r row H.
    exact (lookup_weaken _ _ _ _ H Hsub).
Qed.

Lemma align_row_pad_truncate_witness :
  align_row [txt "a"; txt "b"; txt "c"] [txt "1"; txt "2"]
  = [txt "1"; txt "2"; []] /\
  align_row [txt "a"; txt "b"; txt "c"] [txt "1"; txt "2"; txt "3"; txt "4"]
  = [txt "1"; txt "2"; txt "3"].
Proof.
  split.
  - apply (proj1 (align_row_pad_truncate [txt "a"; txt "b"; txt "c"])).
    simpl. lia.
  - apply (proj1 (proj2 (align_row_pad_truncate [txt "a"; txt "b"; txt "c"]))).
    simpl. lia.
Defined.

(** ** The index of the sources *)

Lemma index_step_lookup (m : gmap str csvrow) (r : csvrow) (sid : str) :
  index_step m r !! sid
  = if bool_decide (row_get r (txt "id") = Some sid) then Some r else m !! sid.
Proof.
  unfold index_step. destruct (row_get r (txt "id")) as [k|] eqn:E.
  - case_bool_decide as H.
    + injection H as ->. by rewrite lookup_insert_eq.
    + rewrite lookup_insert_ne; [done|]. congruence.
  - by rewrite bool_decide_eq_false_2.
Qed.

Lemma foldl_index_step_lookup (sources : list csvrow) (sid : str) :
  forall m : gmap str csvrow,
    foldl index_step m sources !! sid
    = match last (filter (fun r => row_get r (txt "id") = Some sid) sources) with
      | Some r => Some r
      | None => m !! sid
      end.
Proof.
  induction sources as [|r sources IH] using rev_ind; intros m; [done|].
  rewrite foldl_app. simpl. rewrite index_step_lookup, filter_app, IH.
  rewrite filter_cons, filter_nil. case_bool_decide as H.
  - rewrite decide_True by done. by rewrite last_snoc.
  - rewrite decide_False by done. by rewrite app_nil_r.
Qed.

(** C1, as the code has it: the index maps an id to the last row of the
    sources that has this id, and to nothing when no row has it; building it
    raises nothing. *)
Theorem index_sources_last_wins (sources : list csvrow) (sid : str) :
  index_sources sources !! sid
  = last (filter (fun r => row_get r (txt "id") = Some sid) sources).
Proof.
  unfold index_sources. rewrite foldl_index_step_lookup, lookup_empty.
  by destruct (last _).
Qed.

(** C1 as stated fails: of two rows with the id 7 the index keeps the
    second. *)
Lemma index_sources_counterexample :
  index_sources [source_A; source_B] !! txt "7" = Some source_B /\
  index_sources [source_A; source_B] !! txt "7" <> Some source_A.
Proof.
  assert (H : index_sources [source_A; source_B] !! txt "7" = Some source_B).
  { unfold index_sources. rewrite foldl_index_step_lookup. reflexivity. }
  split; [exact H|]. rewrite H. discriminate.
Qed.

(** ** The precondition of stage 2 *)

Section Stage2Facts.

Variable CSV_DIR : str.
Variable OUTPUT_PATH : str.
Variable dict_reader : str -> list csvrow.
Variable json_dumps : jval -> str.
Variable parents : str -> list str.
Variable gzip_step : bool -> str -> io unit.

Lemma require_exists_missing (path msg : str) (fs : fsys) :
  path_exists fs path = false ->
  require_exists path msg fs = (fs, Raise (FileNotFoundError (msg ++ path))).
Proof. intros H. unfold require_exists. by rewrite H. Qed.

Lemma require_exists_present (path msg : str) (fs : fsys) :
  path_exists fs path = true -> require_exists path msg fs = (fs, Ok tt).
Proof. intros H. unfold require_exists. by rewrite H. Qed.

(** C9: when one of the three CSV files does not exist, [main] ends with a
    [FileNotFoundError] and the file system is the one it started with: no
    directory was made and no output file was created or written. *)
Theorem main_missing_csv (a : args) (fs : fsys) :
  path_exists fs (path_join CSV_DIR (txt "gregobase_chants.csv")) = false \/
  path_exists fs (path_join CSV_DIR (txt "gregobase_sources.csv")) = false \/
  path_exists fs (path_join CSV_DIR (txt "gregobase_chant_sources.csv"))
  = false ->
  exists msg,
    main CSV_DIR OUTPUT_PATH dict_reader json_dumps parents gzip_step a fs
    = (fs, Raise (FileNotFoundError msg)).
Proof.
  intros H. unfold main.
  set (k3 := io_bind (load_csv_dicts _ _) _).
  destruct (path_exists fs (path_join CSV_DIR (txt "gregobase_chants.csv")))
    eqn:E1.
  2:{ eexists. unfold io_bind at 1.
      by rewrite (require_exists_missing _ _ _ E1). }
  unfold io_bind at 1. rewrite (require_exists_present _ _ _ E1).
  destruct (path_exists fs (path_join CSV_DIR (txt "gregobase_sources.csv")))
    eqn:E2.
  2:{ eexists. unfold io_bind at 1.
      by rewrite (require_exists_missing _ _ _ E2). }
  unfold io_bind at 1. rewrite (require_exists_present _ _ _ E2).
  destruct H as [H|[H|H]]; try done.
  eexists. unfold io_bind at 1. by rewrite (require_exists_missing _ _ _ H).
Qed.

End Stage2Facts.

Lemma main_missing_csv_witness :
  exists msg,
    main (txt "extract/csv") (txt "extract/chants.jsonl")
      (fun _ => []) (fun _ => []) (fun _ => []) (fun _ _ => io_ret tt)
      (Args None false false) chants_only
    = (chants_only, Raise (FileNotFoundError msg)).
Proof.
  apply (main_missing_csv (txt "extract/csv") (txt "extract/chants.jsonl")
           (fun _ => []) (fun _ => []) (fun _ => []) (fun _ _ => io_ret tt)
           (Args None false false) chants_only).
  right. left. vm_compute. reflexivity.
Defined.

(** * Further properties *)

(** ** The tokenizer as a scan of the remaining text *)

Lemma loop_body_step_char (blob : str) (st : pstate) (ch : ascii) :
  blob !! i st = Some ch ->
  loop_body blob st = Ok (step_char ch (blob !! (i st + 1)) st).
Proof.
  intros Hch. destruct st as [rs cr cu d ins k]. cbn [i] in Hch.
  unfold loop_body. rewrite (char_at_Some _ _ _ Hch). cbn [mbind res_bind].
  destruct (peek_ok blob k) as (nxt & Hn & Hnxt). rewrite Hn.
  cbn [mbind res_bind]. unfold step_char. cbn [i].
  destruct (k + 1 <? length blob) eqn:E.
  - apply Nat.ltb_lt in E. destruct (char_at_lt blob _ E) as (e & He & Hat).
    rewrite Hat, He in *. subst nxt. cbn [mbind res_bind].
    unfold ascii_eqb.
    repeat (case_bool_decide || case_match); simplify_eq; reflexivity.
  - apply Nat.ltb_ge in E. rewrite (lookup_ge_None_2 blob (k + 1) E) in *.
    subst nxt. unfold ascii_eqb.
    repeat (case_bool_decide || case_match); simplify_eq; reflexivity.
Qed.

Lemma step_char_i (ch : ascii) (nxt : option ascii) (st : pstate) :
  i (step_char ch nxt st) = i st + (if takes_two ch nxt st then 2 else 1).
Proof.
  destruct st as [rs cr cu d ins k]. unfold step_char, takes_two.
  cbn [in_str i]. destruct ins; cbn [andb].
  - destruct (ascii_eqb ch ch_backslash); cbn [orb].
    + by destruct nxt.
    + destruct (ascii_eqb ch ch_quote) eqn:Eq; cbn [andb].
      * destruct nxt as [e|]; [|by rewrite bool_decide_eq_false_2].
        unfold ascii_eqb. repeat case_bool_decide; simplify_eq; done.
      * by destruct nxt.
  - destruct nxt; repeat case_match; reflexivity.
Qed.

Lemma scan_text_cons (ch : ascii) (s : str) (st : pstate) :
  scan_text (ch :: s) st
  = if takes_two ch (head s) st
    then scan_text (tail s) (step_char ch (head s) st)
    else scan_text s (step_char ch (head s) st).
Proof. destruct s; reflexivity. Qed.

(** The loop computes [scan_text] on the text from position [i] on. *)
Lemma loop_scan_text (blob : str) (fuel : nat) :
  forall st : pstate,
    i st <= length blob -> length blob - i st <= fuel ->
    loop fuel blob st = Ok (scan_text (drop (i st) blob) st).
Proof.
  induction fuel as [|fuel IH]; intros st Hle Hf.
  - simpl. replace (i st <? length blob) with false
      by (symmetry; apply Nat.ltb_ge; lia).
    by rewrite drop_ge by lia.
  - simpl. destruct (i st <? length blob) eqn:E.
    + apply Nat.ltb_lt in E.
      destruct (lookup_lt_is_Some_2 blob (i st) E) as [ch Hch].
      rewrite (loop_body_step_char _ _ _ Hch). cbn [mbind res_bind].
      rewrite (drop_S _ _ _ Hch), scan_text_cons.
      replace (head (drop (S (i st)) blob)) with (blob !! (i st + 1))
        by (rewrite head_lookup, lookup_drop; f_equal; lia).
      pose proof (step_char_i ch (blob !! (i st + 1)) st) as Hi.
      destruct (takes_two ch (blob !! (i st + 1)) st) eqn:Et.
      * assert (Hlt : i st + 1 < length blob).
        { unfold takes_two in Et.
          destruct (blob !! (i st + 1)) eqn:El; [|done].
          by eapply lookup_lt_Some. }
        rewrite IH by (rewrite Hi; lia). rewrite Hi. f_equal.
        replace (tail (drop (S (i st)) blob)) with (drop 1 (drop (S (i st)) blob))
          by (by destruct (drop (S (i st)) blob)).
        rewrite drop_drop. do 2 f_equal. lia.
      * rewrite IH by (rewrite Hi; lia). rewrite Hi. do 3 f_equal. lia.
    + apply Nat.ltb_ge in E. by rewrite drop_ge by lia.
Qed.

Lemma parse_values_blob_tokens (blob : str) :
  parse_values_blob blob = Ok (tokens blob).
Proof.
  unfold parse_values_blob, tokens.
  rewrite (loop_scan_text blob (length blob) pstate_init); simpl; try lia.
  reflexivity.
Qed.

Lemma scan_text_outside (ch : ascii) (s : str) (st : pstate) :
  in_str st = false ->
  scan_text (ch :: s) st = scan_text s (step_char ch None st).
Proof.
  intros H. rewrite scan_text_cons.
  assert (Ht : takes_two ch (head s) st = false)
    by (unfold takes_two; rewrite H; by destruct (head s)).
  rewrite Ht. f_equal. destruct st as [rs cr cu d ins k]. cbn [in_str] in H.
  subst ins. reflexivity.
Qed.

Lemma member_false_cons (c x : ascii) (l : str) :
  Py.member (x :: l) c = false -> c <> x /\ Py.member l c = false.
Proof.
  unfold Py.member. simpl. intros H. apply orb_false_elim in H as [H1 H2].
  split; [|done]. unfold ascii_eqb in H1. by case_bool_decide.
Qed.

Ltac plain_chars :=
  repeat match goal with
    | H : bare_char _ = true |- _ =>
        unfold bare_char in H; apply negb_true_iff in H
    | H : literal_char _ = true |- _ =>
        unfold literal_char in H; apply negb_true_iff in H
    | H : sep_char _ = true |- _ =>
        unfold sep_char in H; apply negb_true_iff in H
    | H : Py.member (_ :: _) _ = false |- _ =>
        apply member_false_cons in H; destruct H
    end.

Lemma ascii_eqb_ne (a b : ascii) : a <> b -> ascii_eqb a b = false.
Proof. intros H. unfold ascii_eqb. by rewrite bool_decide_eq_false_2. Qed.

Lemma scan_sep (s rest : str) :
  forall (rs : list (list str)) (st : pstate),
    at_top rs st -> forallb sep_char s = true ->
    exists st', scan_text (s ++ rest) st = scan_text rest st' /\ at_top rs st'.
Proof.
  induction s as [|c s IH]; intros rs st Htop Hs; [by exists st|].
  simpl in Hs. apply andb_prop in Hs as [Hc Hs]. plain_chars.
  destruct Htop as (Hr & Hd & Hi).
  rewrite <- app_comm_cons, scan_text_outside by done.
  apply (IH rs); [|done].
  destruct st as [rs0 cr cu d ins k]. cbn [rows depth in_str] in *. subst.
  unfold step_char. rewrite !ascii_eqb_ne by done. cbn [andb].
  destruct (ascii_eqb c ch_comma), (ascii_eqb c ch_semi); done.
Qed.

Lemma scan_bare (s rest : str) :
  forall (rs : list (list str)) (cr : list str) (cu : str) (st : pstate),
    in_tuple false rs cr cu st -> forallb bare_char s = true ->
    exists st',
      scan_text (s ++ rest) st = scan_text rest st' /\
      in_tuple false rs cr (cu ++ s) st'.
Proof.
  induction s as [|c s IH]; intros rs cr cu st Hin Hs.
  - exists st. by rewrite app_nil_r.
  - simpl in Hs. apply andb_prop in Hs as [Hc Hs]. plain_chars.
    destruct Hin as (Hr & Hcr & Hcu & Hd & Hi).
    rewrite <- app_comm_cons, scan_text_outside by done.
    destruct (IH rs cr (cu ++ [c]) (step_char c None st)) as (st' & Hst & Hin');
      [|done|].
    + destruct st as [rs0 cr0 cu0 d ins k].
      cbn [rows cur_row cur depth in_str] in *. subst.
      unfold step_char. rewrite !ascii_eqb_ne by done. cbn [andb].
      destruct (ascii_eqb c ch_semi); done.
    + exists st'. split; [done|]. by rewrite <- app_assoc in Hin'.
Qed.

Lemma scan_literal (q rest : str) :
  forall (rs : list (list str)) (cr : list str) (cu : str) (st : pstate),
    in_tuple true rs cr cu st -> forallb literal_char q = true ->
    head rest <> Some ch_quote ->
    exists st',
      scan_text (q ++ ch_quote :: rest) st = scan_text rest st' /\
      in_tuple false rs cr (cu ++ q) st'.
Proof.
  induction q as [|c q IH]; intros rs cr cu st Hin Hq Hrest.
  - destruct Hin as (Hr & Hcr & Hcu & Hd & Hi).
    destruct st as [rs0 cr0 cu0 d ins k].
    cbn [rows cur_row cur depth in_str] in *. subst.
    simpl app. rewrite scan_text_cons.
    assert (Ht : takes_two ch_quote (head rest) (PState rs cr cu 1 true k)
                 = false).
    { unfold takes_two. destruct (head rest) as [e|] eqn:E; [|done].
      cbn [in_str andb]. rewrite (ascii_eqb_ne e ch_quote) by congruence.
      reflexivity. }
    rewrite Ht. eexists. split; [reflexivity|].
    unfold step_char.
    change (ascii_eqb ch_quote ch_backslash) with false.
    change (ascii_eqb ch_quote ch_quote) with true. cbn match.
    rewrite bool_decide_eq_false_2 by done. by rewrite app_nil_r.
  - simpl in Hq. apply andb_prop in Hq as [Hc Hq]. plain_chars.
    destruct Hin as (Hr & Hcr & Hcu & Hd & Hi).
    rewrite <- app_comm_cons, scan_text_cons.
    assert (Ht : takes_two c (head (q ++ ch_quote :: rest)) st = false).
    { unfold takes_two. destruct (head (q ++ ch_quote :: rest)); [|done].
      rewrite !ascii_eqb_ne by done. by rewrite andb_false_r. }
    rewrite Ht.
    destruct (IH rs cr (cu ++ [c])
                (step_char c (head (q ++ ch_quote :: rest)) st))
      as (st' & Hst & Hin'); [|done|done|].
    + destruct st as [rs0 cr0 cu0 d ins k].
      cbn [rows cur_row cur depth in_str] in *. subst.
      unfold step_char. rewrite !ascii_eqb_ne by done. done.
    + exists st'. split; [done|]. by rewrite <- app_assoc in Hin'.
Qed.

Lemma head_bare_app (s rest : str) :
  forallb bare_char s = true -> head rest <> Some ch_quote ->
  head (s ++ rest) <> Some ch_quote.
Proof.
  destruct s as [|c s]; [done|]. simpl. intros H _.
  apply andb_prop in H as [Hc _]. plain_chars. congruence.
Qed.

Lemma scan_field (f : field_src) (rest : str) (rs : list (list str))
    (cr : list str) (cu : str) (st : pstate) :
  in_tuple false rs cr cu st -> field_ok f = true ->
  head rest <> Some ch_quote ->
  exists st',
    scan_text (field_text f ++ rest) st = scan_text rest st' /\
    in_tuple false rs cr (cu ++ field_content f) st'.
Proof.
  intros Hin Hok Hrest. destruct f as [ld [q|] tr].
  all: unfold field_ok in Hok; cbn [lead quoted trail] in Hok.
  all: apply andb_prop in Hok as [Hok Hq]; apply andb_prop in Hok as [Hl Ht].
  all: unfold field_text, field_content; cbn [lead quoted trail default].
  - assert (E : (ld ++ (ch_quote :: q ++ [ch_quote]) ++ tr) ++ rest
                = ld ++ ch_quote :: q ++ ch_quote :: tr ++ rest)
      by (rewrite <- !app_assoc; simpl; by rewrite <- !app_assoc).
    rewrite E. clear E.
    destruct (scan_bare ld (ch_quote :: q ++ ch_quote :: tr ++ rest)
                rs cr cu st Hin Hl) as (st1 & -> & Hin1).
    destruct Hin1 as (Hr & Hcr & Hcu & Hd & Hi).
    rewrite scan_text_outside by done.
    destruct (scan_literal q (tr ++ rest) rs cr (cu ++ ld)
                (step_char ch_quote None st1)) as (st2 & -> & Hin2);
      [|done|by apply head_bare_app|].
    { destruct st1 as [rs0 cr0 cu0 d ins k].
      cbn [rows cur_row cur depth in_str] in *. by subst. }
    destruct (scan_bare tr rest rs cr ((cu ++ ld) ++ q) st2 Hin2 Ht)
      as (st3 & -> & Hin3).
    exists st3. split; [done|]. by rewrite <- !app_assoc in Hin3.
  - assert (E : (ld ++ [] ++ tr) ++ rest = ld ++ tr ++ rest)
      by (by rewrite <- !app_assoc).
    rewrite E. clear E.
    destruct (scan_bare ld (tr ++ rest) rs cr cu st Hin Hl)
      as (st1 & -> & Hin1).
    destruct (scan_bare tr rest rs cr (cu ++ ld) st1 Hin1 Ht)
      as (st2 & -> & Hin2).
    exists st2. split; [done|]. by rewrite <- !app_assoc in Hin2.
Qed.

Lemma scan_fields (rest : str) (fs : list field_src) :
  forall (f : field_src) (rs : list (list str)) (cr : list str) (st : pstate),
    in_tuple false rs cr [] st -> forallb field_ok (f :: fs) = true ->
    exists st',
      scan_text
        (Py.join [ch_comma] (map field_text (f :: fs)) ++ ch_rparen :: rest) st
      = scan_text rest st' /\
      at_top (rs ++ [cr ++ map field_value (f :: fs)]) st'.
Proof.
  induction fs as [|g fs IH]; intros f rs cr st Hin Hok.
  - simpl in Hok. rewrite andb_true_r in Hok. simpl map. simpl Py.join.
    destruct (scan_field f (ch_rparen :: rest) rs cr [] st Hin Hok)
      as (st1 & -> & Hin1); [done|].
    destruct Hin1 as (Hr & Hcr & Hcu & Hd & Hi).
    rewrite scan_text_outside by done. eexists. split; [reflexivity|].
    destruct st1 as [rs0 cr0 cu0 d ins k].
    cbn [rows cur_row cur depth in_str] in *. subst. done.
  - cbn [forallb] in Hok. apply andb_prop in Hok as [Hf Hok].
    replace (Py.join [ch_comma] (map field_text (f :: g :: fs))
             ++ ch_rparen :: rest)
      with (field_text f
            ++ ch_comma :: Py.join [ch_comma] (map field_text (g :: fs))
            ++ ch_rparen :: rest)
      by (change (Py.join [ch_comma] (map field_text (f :: g :: fs)))
            with (field_text f ++ [ch_comma]
                  ++ Py.join [ch_comma] (map field_text (g :: fs)));
          by rewrite <- app_assoc).
    destruct (scan_field f
                (ch_comma :: Py.join [ch_comma] (map field_text (g :: fs))
                 ++ ch_rparen :: rest) rs cr [] st Hin Hf)
      as (st1 & -> & Hin1); [done|].
    destruct Hin1 as (Hr & Hcr & Hcu & Hd & Hi).
    rewrite scan_text_outside by done.
    destruct (IH g rs (cr ++ [field_value f]) (step_char ch_comma None st1))
      as (st2 & -> & Htop); [|done|].
    { destruct st1 as [rs0 cr0 cu0 d ins k].
      cbn [rows cur_row cur depth in_str] in *. subst. done. }
    exists st2. split; [done|]. by rewrite <- app_assoc in Htop.
Qed.

Lemma scan_tuple (fs : list field_src) (rest : str) (rs : list (list str))
    (st : pstate) :
  at_top rs st -> tuple_ok fs = true ->
  exists st',
    scan_text (tuple_text fs ++ rest) st = scan_text rest st' /\
    at_top (rs ++ [map field_value fs]) st'.
Proof.
  intros (Hr & Hd & Hi) Hok. unfold tuple_ok in Hok.
  apply andb_prop in Hok as [Hne Hok]. destruct fs as [|f fs]; [done|].
  unfold tuple_text. rewrite <- app_comm_cons, <- app_assoc.
  rewrite scan_text_outside by done.
  apply (scan_fields rest fs f rs []); [|done].
  destruct st as [rs0 cr0 cu0 d ins k].
  cbn [rows cur_row cur depth in_str] in *. subst. done.
Qed.

Lemma scan_tuples (sep rest : str) (ts : list (list field_src)) :
  forallb sep_char sep = true ->
  forall (t : list field_src) (rs : list (list str)) (st : pstate),
    at_top rs st -> forallb tuple_ok (t :: ts) = true ->
    exists st',
      scan_text (Py.join sep (map tuple_text (t :: ts)) ++ rest) st
      = scan_text rest st' /\
      at_top (rs ++ map (map field_value) (t :: ts)) st'.
Proof.
  intros Hsep. induction ts as [|u ts IH]; intros t rs st Htop Hok.
  - simpl in Hok. rewrite andb_true_r in Hok.
    by apply scan_tuple.
  - cbn [forallb] in Hok. apply andb_prop in Hok as [Ht Hok].
    replace (Py.join sep (map tuple_text (t :: u :: ts)) ++ rest)
      with (tuple_text t
            ++ sep ++ Py.join sep (map tuple_text (u :: ts)) ++ rest)
      by (change (Py.join sep (map tuple_text (t :: u :: ts)))
            with (tuple_text t ++ sep
                  ++ Py.join sep (map tuple_text (u :: ts)));
          by rewrite <- !app_assoc).
    destruct (scan_tuple t
                (sep ++ Py.join sep (map tuple_text (u :: ts)) ++ rest)
                rs st Htop Ht) as (st1 & -> & Htop1).
    destruct (scan_sep sep (Py.join sep (map tuple_text (u :: ts)) ++ rest)
                _ st1 Htop1 Hsep) as (st2 & -> & Htop2).
    destruct (IH u _ st2 Htop2 Hok) as (st3 & -> & Htop3).
    exists st3. split; [done|]. by rewrite <- app_assoc in Htop3.
Qed.

Lemma tokens_well_formed (pre sep post : str)
    (tuples : list (list field_src)) :
  forallb sep_char pre = true -> forallb sep_char sep = true ->
  forallb sep_char post = true -> forallb tuple_ok tuples = true ->
  tokens (pre ++ Py.join sep (map tuple_text tuples) ++ post)
  = map (map field_value) tuples.
Proof.
  intros Hpre Hsep Hpost Hok. unfold tokens.
  destruct (scan_sep pre (Py.join sep (map tuple_text tuples) ++ post)
              [] pstate_init) as (st1 & -> & Htop1); [done|done|].
  destruct tuples as [|t ts].
  - simpl. destruct (scan_sep post [] [] st1 Htop1 Hpost) as (st2 & H2 & Htop2).
    rewrite app_nil_r in H2. rewrite H2. simpl. by destruct Htop2.
  - destruct (scan_tuples sep post ts Hsep t [] st1 Htop1 Hok)
      as (st2 & -> & Htop2).
    destruct (scan_sep post [] _ st2 Htop2 Hpost) as (st3 & H3 & Htop3).
    rewrite app_nil_r in H3. rewrite H3. simpl. by destruct Htop3.
Qed.


(** ** Invariants of the scan *)

Lemma str_ind2 (P : str -> Prop) :
  P [] -> (forall c, P [c]) ->
  (forall c e s, P s -> P (e :: s) -> P (c :: e :: s)) ->
  forall s, P s.
Proof.
  intros H0 H1 H2 s. assert (H : P s /\ forall c, P (c :: s)); [|tauto].
  induction s as [|e s [IH1 IH2]]; [by split|]. split; [apply IH2|].
  intros c. by apply H2.
Qed.

Lemma scan_text_inv (P : pstate -> Prop) :
  (forall ch nxt st, P st -> P (step_char ch nxt st)) ->
  forall (s : str) (st : pstate), P st -> P (scan_text s st).
Proof.
  intros Hstep s. induction s as [|c|c e s IH1 IH2] using str_ind2;
    intros st Hst.
  - done.
  - by apply Hstep.
  - rewrite scan_text_cons. destruct (takes_two c _ st).
    + apply IH1. by apply Hstep.
    + apply IH2. by apply Hstep.
Qed.

Lemma step_char_rows (ch : ascii) (nxt : option ascii) (st : pstate) :
  rows (step_char ch nxt st) = rows st \/
  (ch = ch_rparen /\
   rows (step_char ch nxt st)
   = rows st ++ [cur_row st ++ [sql_token_to_text (Py.strip (cur st))]]).
Proof.
  destruct st as [rs cr cu d ins k]. unfold step_char, ascii_eqb.
  cbn [rows cur_row cur].
  repeat (case_bool_decide || case_match); simplify_eq; cbn [rows]; auto.
Qed.

Lemma step_char_cur_row (ch : ascii) (nxt : option ascii) (st : pstate) :
  cur_row (step_char ch nxt st) = cur_row st \/
  cur_row (step_char ch nxt st) = [] \/
  cur_row (step_char ch nxt st)
  = cur_row st ++ [sql_token_to_text (Py.strip (cur st))].
Proof.
  destruct st as [rs cr cu d ins k]. unfold step_char, ascii_eqb.
  cbn [rows cur_row cur].
  repeat (case_bool_decide || case_match); simplify_eq; cbn [cur_row]; auto.
Qed.

Lemma count_rparen_app (a b : str) :
  count_rparen (a ++ b) = count_rparen a + count_rparen b.
Proof. unfold count_rparen. by rewrite filter_app, length_app. Qed.

Lemma step_char_rows_length (ch : ascii) (nxt : option ascii) (st : pstate) :
  length (rows (step_char ch nxt st))
  <= length (rows st) + count_rparen [ch].
Proof.
  destruct (step_char_rows ch nxt st) as [->|[-> ->]]; [lia|].
  rewrite length_app. unfold count_rparen.
  rewrite filter_cons, decide_True by done. simpl. lia.
Qed.

Lemma scan_text_rows_length (s : str) :
  forall st : pstate,
    length (rows (scan_text s st)) <= length (rows st) + count_rparen s.
Proof.
  induction s as [|c|c e s IH1 IH2] using str_ind2; intros st.
  - simpl. lia.
  - apply step_char_rows_length.
  - rewrite scan_text_cons.
    pose proof (step_char_rows_length c (head (e :: s)) st) as Hc.
    change (count_rparen (c :: e :: s))
      with (count_rparen ([c] ++ [e] ++ s)).
    rewrite !count_rparen_app.
    destruct (takes_two c _ st).
    + cbn [tail]. specialize (IH1 (step_char c (head (e :: s)) st)). lia.
    + specialize (IH2 (step_char c (head (e :: s)) st)).
      change (count_rparen (e :: s)) with (count_rparen ([e] ++ s)) in IH2.
      rewrite count_rparen_app in IH2. lia.
Qed.

(** X2: every row of the result has at least one field, and there are at
    most as many rows as the blob has closing parentheses. *)
Theorem parse_values_blob_rows_bound (blob : str) :
  exists rs,
    parse_values_blob blob = Ok rs /\
    Forall (fun r => r <> []) rs /\
    length rs <= count_rparen blob.
Proof.
  exists (tokens blob). split; [apply parse_values_blob_tokens|]. split.
  - unfold tokens.
    apply (scan_text_inv (fun st => Forall (fun r => r <> []) (rows st)));
      [|constructor].
    intros ch nxt st H. destruct (step_char_rows ch nxt st) as [->|[_ ->]];
      [done|].
    apply Forall_app. split; [done|]. constructor; [|constructor].
    by destruct (cur_row st).
  - unfold tokens. pose proof (scan_text_rows_length blob pstate_init) as H.
    simpl in H. lia.
Qed.

(** *** Trimming *)

Lemma lstrip_by_head (p : ascii -> bool) (s : str) :
  match Py.lstrip_by p s with [] => True | c :: _ => p c = false end.
Proof.
  induction s as [|c s IH]; [done|]. simpl. by destruct (p c) eqn:E.
Qed.

Lemma lstrip_by_id (p : ascii -> bool) (s : str) :
  match s with [] => True | c :: _ => p c = false end ->
  Py.lstrip_by p s = s.
Proof. destruct s as [|c s]; [done|]. simpl. by intros ->. Qed.

Lemma lstrip_by_suffix (p : ascii -> bool) (s : str) :
  exists ws, s = ws ++ Py.lstrip_by p s.
Proof.
  induction s as [|c s [ws IH]]; [by exists []|]. simpl.
  destruct (p c); [|by exists []]. exists (c :: ws). simpl. by f_equal.
Qed.

Lemma rstrip_by_prefix (p : ascii -> bool) (s : str) :
  exists ws, s = Py.rstrip_by p s ++ ws.
Proof.
  unfold Py.rstrip_by. destruct (lstrip_by_suffix p (rev s)) as [ws H].
  exists (rev ws). rewrite <- rev_app_distr, <- H. by rewrite rev_involutive.
Qed.

Lemma rstrip_by_idemp (p : ascii -> bool) (s : str) :
  Py.rstrip_by p (Py.rstrip_by p s) = Py.rstrip_by p s.
Proof.
  unfold Py.rstrip_by. rewrite rev_involutive. f_equal.
  apply lstrip_by_id, lstrip_by_head.
Qed.

(** What [rstrip] leaves does not end with a stripped character. *)
Lemma rstrip_by_last (p : ascii -> bool) (s : str) :
  match last (Py.rstrip_by p s) with Some c => p c = false | None => True end.
Proof.
  unfold Py.rstrip_by. pose proof (lstrip_by_head p (rev s)) as H.
  destruct (Py.lstrip_by p (rev s)) as [|c t]; [done|].
  simpl rev. by rewrite last_snoc.
Qed.

Lemma strip_idemp (s : str) : Py.strip (Py.strip s) = Py.strip s.
Proof.
  unfold Py.strip.
  assert (H : Py.lstrip_by Py.isspace
                (Py.rstrip_by Py.isspace (Py.lstrip_by Py.isspace s))
              = Py.rstrip_by Py.isspace (Py.lstrip_by Py.isspace s)).
  { apply lstrip_by_id.
    pose proof (lstrip_by_head Py.isspace s) as Hh.
    destruct (rstrip_by_prefix Py.isspace (Py.lstrip_by Py.isspace s))
      as [ws Hws].
    destruct (Py.rstrip_by Py.isspace (Py.lstrip_by Py.isspace s))
      as [|c t]; [done|].
    rewrite Hws in Hh. done. }
  rewrite H. apply rstrip_by_idemp.
Qed.

Lemma sql_token_to_text_normal (cu : str) :
  normal_field (sql_token_to_text (Py.strip cu)).
Proof.
  unfold normal_field, sql_token_to_text. case_bool_decide as H.
  - split; [reflexivity|]. vm_compute. discriminate.
  - split; [apply strip_idemp|done].
Qed.

(** X3: no field of the result has white space at either end, and none is
    NULL in any mix of cases: [f.strip() == f] and [f.upper() != "NULL"]
    for every field [f] of every row. *)
Theorem parse_values_blob_fields_normal (blob : str) :
  exists rs,
    parse_values_blob blob = Ok rs /\
    Forall (Forall normal_field) rs.
Proof.
  exists (tokens blob). split; [apply parse_values_blob_tokens|].
  unfold tokens.
  assert (H : Forall (Forall normal_field) (rows (scan_text blob pstate_init))
              /\ Forall normal_field (cur_row (scan_text blob pstate_init)));
    [|tauto].
  apply (scan_text_inv
           (fun st => Forall (Forall normal_field) (rows st)
                      /\ Forall normal_field (cur_row st)));
    [|by split; constructor].
  intros ch nxt st [Hr Hc]. split.
  - destruct (step_char_rows ch nxt st) as [->|[_ ->]]; [done|].
    apply Forall_app. split; [done|]. constructor; [|constructor].
    apply Forall_app. split; [done|]. constructor; [|constructor].
    apply sql_token_to_text_normal.
  - destruct (step_char_cur_row ch nxt st) as [->|[->| ->]]; [done|constructor|].
    apply Forall_app. split; [done|]. constructor; [|constructor].
    apply sql_token_to_text_normal.
Qed.

(** ** Tokenizing a concatenation *)

Lemma takes_two_related (r0 : list (list str)) (ch : ascii)
    (nxt : option ascii) (st st' : pstate) :
  rows_related r0 st st' -> takes_two ch nxt st = takes_two ch nxt st'.
Proof. intros (_ & _ & Hi & _). unfold takes_two. by rewrite Hi. Qed.

Lemma step_char_related (r0 : list (list str)) (ch : ascii)
    (nxt : option ascii) (st st' : pstate) :
  rows_related r0 st st' ->
  rows_related r0 (step_char ch nxt st) (step_char ch nxt st').
Proof.
  destruct st as [rs cr cu d ins k], st' as [rs' cr' cu' d' ins' k'].
  unfold rows_related. cbn [rows cur_row cur depth in_str].
  intros (-> & -> & -> & Hc). unfold step_char, ascii_eqb.
  repeat (case_bool_decide || case_match); simplify_eq;
    cbn [rows cur_row cur depth in_str];
    repeat match goal with
      | H : (_ =? _)%Z = true |- _ => apply Z.eqb_eq in H
      | H : (_ =? _)%Z = false |- _ => apply Z.eqb_neq in H
      | H : _ && _ = true |- _ => apply andb_prop in H; destruct H
      end;
    try (destruct Hc as [Hc|[-> ->]]; [try lia|]);
    rewrite ?app_assoc;
    (split; [reflexivity|]); (split; [reflexivity|]);
    (split; [reflexivity|]);
    first [ by right | left; lia | destruct Hc as [?|[-> ->]]; [left; lia|by right] ].
Qed.

Lemma scan_text_related (r0 : list (list str)) (s : str) :
  forall st st' : pstate,
    rows_related r0 st st' ->
    rows_related r0 (scan_text s st) (scan_text s st').
Proof.
  induction s as [|c|c e s IH1 IH2] using str_ind2; intros st st' H.
  - done.
  - by apply step_char_related.
  - rewrite (scan_text_cons c (e :: s) st), (scan_text_cons c (e :: s) st'),
      (takes_two_related r0 c _ st st' H).
    destruct (takes_two c _ st').
    + by apply IH1, step_char_related.
    + by apply IH2, step_char_related.
Qed.

Lemma step_char_last (c e : ascii) (st : pstate) :
  in_str (step_char c None st) = false ->
  (c = ch_quote -> e <> ch_quote) ->
  takes_two c (Some e) st = false /\
  step_char c (Some e) st = step_char c None st.
Proof.
  destruct st as [rs cr cu d ins k]. unfold step_char, takes_two, ascii_eqb.
  cbn [in_str]. intros Hi He.
  destruct ins; [|split; [done|reflexivity]].
  repeat case_bool_decide; simplify_eq; cbn [in_str andb orb] in *;
    try done.
  by destruct He.
Qed.

Lemma scan_text_app (b1 b2 : str) :
  forall st : pstate,
    in_str (scan_text b1 st) = false ->
    (last b1 = Some ch_quote -> head b2 <> Some ch_quote) ->
    scan_text (b1 ++ b2) st = scan_text b2 (scan_text b1 st).
Proof.
  induction b1 as [|c|c e s IH1 IH2] using str_ind2; intros st Hi Hq.
  - done.
  - destruct b2 as [|e b2]; [by rewrite app_nil_r|].
    change ([c] ++ e :: b2) with (c :: e :: b2).
    change (scan_text [c] st) with (step_char c None st) in *.
    rewrite scan_text_cons. cbn [head].
    destruct (step_char_last c e st Hi) as [-> ->]; [|done].
    intros ->. simpl in Hq. intros ->. by apply Hq.
  - rewrite scan_text_cons in Hi. rewrite <- !app_comm_cons.
    rewrite (scan_text_cons c (e :: s ++ b2) st),
      (scan_text_cons c (e :: s) st). cbn [head tail] in *.
    rewrite last_cons_cons in Hq.
    destruct (takes_two c (Some e) st).
    + apply IH1; [done|]. intros Hl. apply Hq.
      destruct s; [done|]. by rewrite last_cons_cons.
    + by apply IH2.
Qed.

(** X4: when the scan of [b1] ends outside a string with all parentheses
    closed, the rows of [b1 ++ b2] are the rows of [b1] followed by the rows
    of [b2], unless [b1] ends with a quote and [b2] starts with one (the two
    would read as a doubled quote). *)
Theorem parse_values_blob_app (b1 b2 : str) (st1 : pstate)
    (rs2 : list (list str)) :
  loop (length b1) b1 pstate_init = Ok st1 ->
  depth st1 = 0%Z -> in_str st1 = false ->
  (last b1 = Some ch_quote -> head b2 <> Some ch_quote) ->
  parse_values_blob b2 = Ok rs2 ->
  parse_values_blob (b1 ++ b2) = Ok (rows st1 ++ rs2).
Proof.
  intros Hl Hd Hi Hq H2.
  rewrite (loop_scan_text b1 (length b1) pstate_init) in Hl
    by (simpl; lia).
  simpl drop in Hl. injection Hl as <-.
  rewrite parse_values_blob_tokens in H2. injection H2 as <-.
  rewrite parse_values_blob_tokens. f_equal. unfold tokens.
  rewrite scan_text_app by done.
  destruct (scan_text_related (rows (scan_text b1 pstate_init)) b2
              (scan_text b1 pstate_init) pstate_init) as (Hr & _).
  { unfold rows_related. cbn [rows depth in_str pstate_init].
    rewrite app_nil_r. split; [done|]. split; [done|]. split; [done|].
    left. lia. }
  exact Hr.
Qed.

(** ** The recognizer on whole dumps *)

Lemma forallb_negb_Forall {A} (f : A -> bool) (l : list A) :
  forallb (fun x => negb (f x)) l = true -> Forall (fun x => f x = false) l.
Proof.
  induction l as [|x l IH]; simpl; [constructor|].
  intros H. apply andb_prop in H as [Hx Hl]. constructor; [|by apply IH].
  by apply negb_true_iff.
Qed.

Lemma scan_blocks (table : str) (tail : list str) (blocks : list block) :
  Forall (fun raw => opens_statement table raw = false) tail ->
  forall st : rstate,
    capturing st = false ->
    forallb (block_ok table) blocks = true ->
    (scan table st (concat (map block_lines blocks) ++ tail)).2
    = concat (map block_yield blocks).
Proof.
  intros Htail. induction blocks as [|b blocks IH]; intros st Hc Hok.
  - simpl. by rewrite scan_skip.
  - cbn [forallb] in Hok. apply andb_prop in Hok as [Hb Hok].
    unfold block_ok in Hb.
    apply andb_prop in Hb as [Hb Hlast]. apply andb_prop in Hb as [Hb Hopen].
    apply andb_prop in Hb as [Hskip Hfirst].
    apply forallb_negb_Forall in Hskip, Hopen.
    cbn [map concat]. unfold block_lines at 1. rewrite <- !app_assoc.
    rewrite (scan_app table (skipped b)),
      (scan_skip table (skipped b) st) by done.
    cbn [fst snd app].
    change (opened b ++ closing b :: concat (map block_lines blocks) ++ tail)
      with (opened b ++ [closing b]
            ++ concat (map block_lines blocks) ++ tail).
    rewrite (app_assoc (opened b)),
      (scan_app table (opened b ++ [closing b])).
    rewrite (scan_statement table st (opened b) (closing b)) by done.
    cbn [fst snd]. by rewrite IH.
Qed.


(** *** The prefix names one table *)

Lemma app_cons_unique (c : ascii) (a a' b b' : str) :
  c ∉ a -> c ∉ a' -> a ++ c :: b = a' ++ c :: b' -> a = a'.
Proof.
  revert a'. induction a as [|x a IH]; intros a' Ha Ha' E.
  - destruct a' as [|y a']; [done|]. simpl in E. injection E as -> _.
    exfalso. apply Ha'. by left.
  - destruct a' as [|y a'].
    + simpl in E. injection E as -> _. exfalso. apply Ha. by left.
    + simpl in E. injection E as -> E. f_equal.
      apply not_elem_of_cons in Ha as [_ Ha].
      apply not_elem_of_cons in Ha' as [_ Ha']. by apply IH.
Qed.

(** X6: a line starts with the prefix of at most one table: for table names
    without a backtick, a line that opens a statement of one table opens
    none of another, also when one name is the beginning of the other. *)
Theorem opens_statement_one_table (t t' raw : str) :
  ch_backtick ∉ t -> ch_backtick ∉ t' ->
  opens_statement t raw = true -> opens_statement t' raw = true -> t = t'.
Proof.
  intros Ht Ht' H H'. unfold opens_statement in *.
  apply startswith_app in H as [v E]. apply startswith_app in H' as [v' E'].
  rewrite E in E'. unfold insert_prefix in E'.
  rewrite <- !app_assoc in E'. apply app_inv_head in E'.
  by apply (app_cons_unique ch_backtick t t' v v').
Qed.

(** ** Splitting a statement *)

Lemma upper_length (s : str) : length (Py.upper s) = length s.
Proof. unfold Py.upper. apply length_map. Qed.

Lemma find_unfold (sub s : str) :
  Py.find sub s
  = if Py.startswith sub s then Some 0
    else match s with [] => None | _ :: s' => S <$> Py.find sub s' end.
Proof. by destruct s. Qed.

Lemma find_at (h : ascii) (sub a b : str) :
  Forall (fun c => c <> h) a ->
  Py.find (h :: sub) (a ++ (h :: sub) ++ b) = Some (length a).
Proof.
  induction a as [|x a IH]; intros Ha.
  - rewrite find_unfold. change ([] ++ (h :: sub) ++ b) with ((h :: sub) ++ b).
    by rewrite startswith_refl_app.
  - inversion Ha as [|? ? Hx Ha']; subst. rewrite find_unfold.
    rewrite <- app_comm_cons. cbn [Py.startswith].
    rewrite (ascii_eqb_ne h x) by done. cbn [andb]. by rewrite IH.
Qed.

Lemma take_app_length' {A} (a b : list A) : take (length a) (a ++ b) = a.
Proof. by rewrite take_app_length. Qed.

Lemma split_insert_parts (before cols_str mid kw blob : str) :
  ch_lparen ∉ before -> ch_rparen ∉ cols_str ->
  Forall (fun c => Py.upper_char c <> "V"%char) mid ->
  Py.upper kw = txt "VALUES" ->
  _split_insert
    (before ++ ch_lparen :: cols_str ++ ch_rparen :: mid ++ kw ++ blob)
  = (Some (map clean_column (Py.split ch_comma cols_str)),
     Some (Py.rstrip_chars [ch_semi; ch_nl; ch_cr; ch_space] blob)).
Proof.
  intros Hb Hc Hm Hk. unfold _split_insert, Py.index_from.
  rewrite drop_0, find_char_first by done.
  cbn [fmap option_fmap option_map]. rewrite Nat.add_0_l, drop_app_cons.
  rewrite find_char_first by done. cbn [fmap option_fmap option_map].
  unfold Py.slice.
  replace (length before + 1 + length cols_str - (length before + 1))
    with (length cols_str) by lia.
  rewrite drop_app_cons, take_app_length'.
  replace (before ++ ch_lparen :: cols_str ++ ch_rparen :: mid ++ kw ++ blob)
    with ((before ++ ch_lparen :: cols_str) ++ ch_rparen :: mid ++ kw ++ blob)
    by (by rewrite <- app_assoc).
  replace (length before + 1 + length cols_str + 1)
    with (length (before ++ ch_lparen :: cols_str) + 1)
    by (rewrite length_app; simpl; lia).
  rewrite drop_app_cons.
  unfold Py.upper. rewrite !map_app. fold (Py.upper kw). rewrite Hk.
  change (txt "VALUES") with ("V"%char :: txt "ALUES") at 1 2.
  rewrite find_at by (by apply Forall_map).
  rewrite length_map.
  assert (Hlen : length kw = length (txt "VALUES"))
    by (by rewrite <- Hk, upper_length).
  rewrite <- Hlen, app_assoc, <- length_app, drop_app_length.
  reflexivity.
Qed.

Lemma split_go_plain (c : ascii) (p : str) :
  forall cur : str, c ∉ p -> Py.split_go c cur p = [rev cur ++ p].
Proof.
  induction p as [|x p IH]; intros cur Hp; simpl.
  - by rewrite app_nil_r.
  - apply not_elem_of_cons in Hp as [Hx Hp].
    rewrite (ascii_eqb_ne x c) by done. rewrite IH by done. simpl.
    by rewrite <- app_assoc.
Qed.

Lemma split_go_sep (c : ascii) (p rest : str) :
  forall cur : str,
    c ∉ p ->
    Py.split_go c cur (p ++ c :: rest)
    = (rev cur ++ p) :: Py.split_go c [] rest.
Proof.
  induction p as [|x p IH]; intros cur Hp; simpl.
  - unfold ascii_eqb. rewrite bool_decide_eq_true_2 by done.
    by rewrite app_nil_r.
  - apply not_elem_of_cons in Hp as [Hx Hp].
    rewrite (ascii_eqb_ne x c) by done. rewrite IH by done. simpl.
    by rewrite <- app_assoc.
Qed.

Lemma split_join (c sp : ascii) (ps : list str) :
  sp <> c ->
  forall (p cur : str),
    Forall (fun q => c ∉ q) (p :: ps) ->
    Py.split_go c cur (Py.join [c; sp] (p :: ps))
    = (rev cur ++ p) :: map (fun q => sp :: q) ps.
Proof.
  intros Hsp. induction ps as [|q ps IH]; intros p cur Hall.
  - inversion Hall; subst. simpl. by apply split_go_plain.
  - inversion Hall as [|? ? Hp Hrest]; subst.
    change (Py.join [c; sp] (p :: q :: ps))
      with (p ++ c :: sp :: Py.join [c; sp] (q :: ps)).
    rewrite split_go_sep by done. f_equal.
    change (Py.split_go c [] (sp :: Py.join [c; sp] (q :: ps)))
      with (if ascii_eqb sp c then rev [] :: Py.split_go c []
                                     (Py.join [c; sp] (q :: ps))
            else Py.split_go c [sp] (Py.join [c; sp] (q :: ps))).
    rewrite (ascii_eqb_ne sp c) by done. by rewrite IH.
Qed.

Lemma rstrip_by_id (p : ascii -> bool) (s : str) :
  match last s with Some c => p c = false | None => True end ->
  Py.rstrip_by p s = s.
Proof.
  unfold Py.rstrip_by. destruct s as [|x s] using rev_ind; [done|].
  rewrite last_snoc, rev_unit. intros H. simpl. rewrite H. simpl.
  by rewrite rev_involutive.
Qed.

Lemma rstrip_by_head (p : ascii -> bool) (s : str) :
  match s with [] => True | c :: _ => p c = false end ->
  match Py.rstrip_by p s with [] => True | c :: _ => p c = false end.
Proof.
  intros H. destruct (rstrip_by_prefix p s) as [ws Hws].
  destruct (Py.rstrip_by p s) as [|c t]; [done|]. by rewrite Hws in H.
Qed.

Lemma member_singleton (x c : ascii) :
  Py.member [x] c = bool_decide (c = x).
Proof. unfold Py.member, ascii_eqb. simpl. by rewrite orb_false_r. Qed.

Lemma clean_column_backticked (ws n : str) :
  forallb Py.isspace ws = true ->
  head n <> Some ch_backtick -> last n <> Some ch_backtick ->
  clean_column (ws ++ ch_backtick :: n ++ [ch_backtick]) = n.
Proof.
  intros Hws Hh Hl. unfold clean_column, Py.strip.
  assert (E1 : Py.lstrip_by Py.isspace (ws ++ ch_backtick :: n ++ [ch_backtick])
               = ch_backtick :: n ++ [ch_backtick]).
  { induction ws as [|w ws IH]; [reflexivity|]. simpl in Hws |- *.
    apply andb_prop in Hws as [-> Hws]. by apply IH. }
  rewrite E1.
  rewrite rstrip_by_id
    by (rewrite app_comm_cons, last_snoc; reflexivity).
  unfold Py.strip_chars.
  assert (E2 : Py.lstrip_by (Py.member [ch_backtick])
                 (ch_backtick :: n ++ [ch_backtick])
               = match n with [] => [] | _ => n ++ [ch_backtick] end).
  { cbn [Py.lstrip_by]. rewrite member_singleton.
    rewrite bool_decide_eq_true_2 by done.
    destruct n as [|x n]; [reflexivity|]. cbn [app Py.lstrip_by].
    rewrite member_singleton, bool_decide_eq_false_2; [done|].
    simpl in Hh. congruence. }
  rewrite E2. destruct n as [|x n]; [reflexivity|].
  unfold Py.rstrip_by. rewrite rev_unit. cbn [Py.lstrip_by].
  rewrite member_singleton, bool_decide_eq_true_2 by done.
  apply (rstrip_by_id (Py.member [ch_backtick]) (x :: n)).
  destruct (last (x :: n)) as [y|] eqn:E; [|done].
  rewrite member_singleton, bool_decide_eq_false_2; [done|]. congruence.
Qed.

Lemma elem_of_join (c : ascii) (sep : str) (parts : list str) :
  c ∈ Py.join sep parts -> c ∈ sep \/ exists p, p ∈ parts /\ c ∈ p.
Proof.
  induction parts as [|p [|q parts] IH]; intros H.
  - by apply elem_of_nil in H.
  - right. exists p. split; [by left|done].
  - change (Py.join sep (p :: q :: parts))
      with (p ++ sep ++ Py.join sep (q :: parts)) in H.
    rewrite !elem_of_app in H. destruct H as [H|[H|H]].
    + right. exists p. split; [by left|done].
    + by left.
    + destruct (IH H) as [?|(r & Hr & Hc)]; [by left|].
      right. exists r. split; [by right|done].
Qed.

Lemma split_column_list (names : list str) :
  names <> [] -> Forall column_name_ok names ->
  map clean_column (Py.split ch_comma (column_list_text names)) = names.
Proof.
  intros Hne Hok. destruct names as [|n names]; [done|].
  unfold column_list_text, Py.split. cbn [map].
  rewrite split_join.
  - inversion Hok as [|? ? (_ & _ & Hh & Hl) Hrest]; subst.
    cbn [map rev app]. f_equal.
    + by apply (clean_column_backticked []).
    + rewrite !map_map. rewrite <- (map_id names) at 2.
      apply map_ext_Forall. eapply Forall_impl; [exact Hrest|].
      intros m (_ & _ & Hh' & Hl'). cbn beta.
      by apply (clean_column_backticked [ch_space]).
  - done.
  - change ((ch_backtick :: n ++ [ch_backtick])
            :: map (fun n => ch_backtick :: n ++ [ch_backtick]) names)
      with (map (fun n => ch_backtick :: n ++ [ch_backtick]) (n :: names)).
    apply Forall_map. eapply Forall_impl; [exact Hok|].
    intros m (Hc & _). cbn beta. rewrite elem_of_cons, elem_of_app.
    intros [?|[?|H]]; [done|done|].
    apply list_elem_of_singleton in H. done.
Qed.

Lemma column_list_no_rparen (names : list str) :
  Forall column_name_ok names -> ch_rparen ∉ column_list_text names.
Proof.
  intros Hok H. apply elem_of_join in H as [H|(p & Hp & H)].
  - apply list_elem_of_In in H. vm_compute in H. intuition discriminate.
  - apply list_elem_of_In, in_map_iff in Hp as (n & <- & Hn).
    rewrite Forall_forall in Hok. destruct (Hok n) as (_ & Hr & _).
    { by apply list_elem_of_In. }
    rewrite elem_of_cons, elem_of_app in H.
    destruct H as [?|[?|H]]; [done|done|].
    apply list_elem_of_singleton in H. done.
Qed.


Lemma split_insert_Some_inv (chunk : str) (cols : list str) (blob : str) :
  _split_insert chunk = (Some cols, Some blob) ->
  exists cols_str rest,
    cols = map clean_column (Py.split ch_comma cols_str) /\
    blob = Py.rstrip_chars [ch_semi; ch_nl; ch_cr; ch_space] rest.
Proof.
  unfold _split_insert.
  destruct (Py.index_from ch_lparen chunk 0) as [pos_open|]; [|done].
  destruct (Py.index_from ch_rparen chunk (pos_open + 1)) as [pos_close|];
    [|done].
  destruct (Py.find _ _) as [idx_vals|]; [|done].
  intros [= <- <-]. eauto.
Qed.

Lemma split_go_nonempty (c : ascii) (s : str) :
  forall cur : str, Py.split_go c cur s <> [].
Proof.
  induction s as [|x s IH]; intros cur; simpl; [done|].
  destruct (ascii_eqb x c); [done|apply IH].
Qed.

Lemma clean_column_ends (c : str) :
  head (clean_column c) <> Some ch_backtick /\
  last (clean_column c) <> Some ch_backtick.
Proof.
  unfold clean_column, Py.strip_chars. split.
  - pose proof (rstrip_by_head (Py.member [ch_backtick])
                  (Py.lstrip_by (Py.member [ch_backtick]) (Py.strip c))
                  (lstrip_by_head _ _)) as H.
    destruct (Py.rstrip_by _ _) as [|x t]; [done|]. simpl. intros [= ->].
    by vm_compute in H.
  - pose proof (rstrip_by_last (Py.member [ch_backtick])
                  (Py.lstrip_by (Py.member [ch_backtick]) (Py.strip c))) as H.
    destruct (last _) as [x|]; [|done]. intros [= ->]. by vm_compute in H.
Qed.

(** X8: what a consumer of the recognizer can rely on: every pair it yields
    has at least one column, no column starts or ends with a backtick, and
    the values blob does not end with [;], a line end or a space. *)
Theorem iter_insert_chunks_yields_clean (fp : list str) (table : str)
    (cols : list str) (values_blob : str) :
  (cols, values_blob) ∈ iter_insert_chunks fp table ->
  cols <> [] /\
  Forall (fun c => head c <> Some ch_backtick /\ last c <> Some ch_backtick)
    cols /\
  forall c, last values_blob = Some c ->
            c ∉ [ch_semi; ch_nl; ch_cr; ch_space].
Proof.
  intros Hp.
  destruct (scan_sound table (cols, values_blob) fp [] rstate_init)
    as (pre & open & last_line & rest & _ & _ & _ & _ & Hs);
    [intros ?; done|exact Hp|].
  cbn [fst snd] in Hs.
  apply split_insert_Some_inv in Hs as (cols_str & rest' & -> & ->).
  split; [|split].
  - unfold Py.split. intros H. apply map_eq_nil in H.
    by apply split_go_nonempty in H.
  - apply Forall_map, Forall_forall. intros c _. apply clean_column_ends.
  - intros c Hc.
    pose proof (rstrip_by_last (Py.member [ch_semi; ch_nl; ch_cr; ch_space])
                  rest') as H.
    unfold Py.rstrip_chars in Hc. rewrite Hc in H.
    intros Hin. apply list_elem_of_In in Hin. simpl in Hin.
    destruct Hin as [<-|[<-|[<-|[<-|[]]]]]; by vm_compute in H.
Qed.

(** ** The CSV of a table *)

Lemma align_row_length (hdr row : list str) :
  length (align_row hdr row) = length hdr.
Proof.
  unfold align_row. destruct (length row =? length hdr) eqn:E; simpl.
  - by apply Nat.eqb_eq in E.
  - apply Nat.eqb_neq in E. destruct (length row <? length hdr) eqn:E'.
    + apply Nat.ltb_lt in E'. rewrite length_app, length_replicate. lia.
    + apply Nat.ltb_ge in E'. rewrite length_take. lia.
Qed.

Lemma chunk_loop_written (chunks : list (list str * str)) :
  forall st : xstate,
    wrote_header st = true ->
    chunk_loop st chunks
    = Ok (XState true (header st)
            (written st
             ++ concat (map (fun p => map (align_row (header st)) (tokens p.2))
                          chunks))).
Proof.
  induction chunks as [|[cols blob] chunks IH]; intros st Hw.
  - simpl. rewrite app_nil_r. destruct st; simpl in *; by subst.
  - cbn [chunk_loop]. unfold chunk_step. rewrite Hw. cbn [negb].
    rewrite parse_values_blob_tokens. cbn [mbind res_bind].
    rewrite IH by done. cbn [header written wrote_header map concat snd].
    by rewrite app_assoc.
Qed.

Lemma extract_table_of_chunks (fp : list str) (table : str) :
  extract_table fp table
  = Ok match iter_insert_chunks fp table with
       | [] => []
       | (cols, _) :: _ =>
           cols :: concat (map (fun p => map (align_row cols) (tokens p.2))
                             (iter_insert_chunks fp table))
       end.
Proof.
  unfold extract_table.
  destruct (iter_insert_chunks fp table) as [|[cols blob] chunks]; [done|].
  cbn [chunk_loop]. unfold chunk_step at 1.
  cbn [wrote_header xstate_init negb written app].
  rewrite parse_values_blob_tokens. cbn [mbind res_bind].
  rewrite chunk_loop_written by done.
  by cbn [mbind res_bind header written wrote_header map concat snd].
Qed.

(** X9: [extract_table] never raises.  Without a statement of the table it
    writes nothing, not even a header.  Otherwise it writes the columns of
    the first statement as the header and then the rows of every statement
    in order, each aligned to that header, whatever columns the later
    statements name; so every line has the width of the header. *)
Theorem extract_table_rows (fp : list str) (table : str) :
  exists rowss out,
    Forall2 (fun p rs => parse_values_blob p.2 = Ok rs)
      (iter_insert_chunks fp table) rowss /\
    extract_table fp table = Ok out /\
    out = match iter_insert_chunks fp table with
          | [] => []
          | (cols, _) :: _ => cols :: concat (map (map (align_row cols)) rowss)
          end /\
    forall hdr body,
      out = hdr :: body -> Forall (fun r => length r = length hdr) body.
Proof.
  exists (map (fun p => tokens p.2) (iter_insert_chunks fp table)).
  eexists. split; [|split; [|split; [reflexivity|]]].
  - apply Forall2_fmap_r, Forall_Forall2_diag, Forall_forall.
    intros p _. apply parse_values_blob_tokens.
  - rewrite extract_table_of_chunks. f_equal.
    destruct (iter_insert_chunks fp table) as [|[cols blob] chunks]; [done|].
    by rewrite map_map.
  - intros hdr body.
    destruct (iter_insert_chunks fp table) as [|[cols blob] chunks]; [done|].
    intros [= <- <-]. apply Forall_app. split.
    + apply Forall_map, Forall_forall. intros r _. apply align_row_length.
    + apply Forall_concat, Forall_map, Forall_map, Forall_forall.
      intros p _. apply Forall_map, Forall_forall.
      intros r _. apply align_row_length.
Qed.

(** ** The join *)

Lemma group_step_lookup (sbi : gmap str csvrow) (m : gmap str (list jval))
    (cs : csvrow) (cid : str) :
  group_step sbi m cs !! cid
  = if bool_decide (row_get cs (txt "chant_id") = Some cid)
    then Some (default [] (m !! cid) ++ [bridge_entry sbi cs])
    else m !! cid.
Proof.
  unfold group_step. destruct (row_get cs (txt "chant_id")) as [k|] eqn:E.
  - case_bool_decide as H.
    + injection H as ->. by rewrite lookup_insert_eq.
    + rewrite lookup_insert_ne; [done|]. congruence.
  - by rewrite bool_decide_eq_false_2.
Qed.

Lemma foldl_group_step_lookup (sbi : gmap str csvrow) (css : list csvrow)
    (cid : str) :
  forall m : gmap str (list jval),
    foldl (group_step sbi) m css !! cid
    = match filter (fun cs => row_get cs (txt "chant_id") = Some cid) css with
      | [] => m !! cid
      | l => Some (default [] (m !! cid) ++ map (bridge_entry sbi) l)
      end.
Proof.
  induction css as [|cs css IH]; intros m; [done|].
  cbn [foldl]. rewrite IH, group_step_lookup, filter_cons.
  case_bool_decide as H.
  - rewrite decide_True by done. cbn [default].
    destruct (filter _ css) as [|c l]; [done|].
    unfold id. by rewrite <- app_assoc.
  - by rewrite decide_False by done.
Qed.

(** X10: the bridge rows are grouped by [chant_id] in the order of the
    bridge table: a chant id maps to the entries of the rows that name it,
    in their order, and to nothing when no row names it; rows without a
    [chant_id] are left out. *)
Theorem group_sources_lookup (sbi : gmap str csvrow) (css : list csvrow)
    (cid : str) :
  group_sources sbi css !! cid
  = match filter (fun cs => row_get cs (txt "chant_id") = Some cid) css with
    | [] => None
    | l => Some (map (bridge_entry sbi) l)
    end.
Proof.
  unfold group_sources. rewrite foldl_group_step_lookup, lookup_empty.
  by destruct (filter _ css).
Qed.

Lemma assoc_dict_set {V} (d : list (str * V)) (k k' : str) (v : V) :
  assoc (dict_set d k v) k'
  = if bool_decide (k' = k) then Some v else assoc d k'.
Proof.
  induction d as [|[k0 v0] d IH]; simpl.
  - repeat case_bool_decide; simplify_eq; done.
  - repeat (case_bool_decide; simpl); simplify_eq; try done.
    all: rewrite ?IH; repeat case_bool_decide; simplify_eq; done.
Qed.

Lemma assoc_jrow (r : csvrow) (k : str) :
  assoc (map (fun kv => (kv.1, jopt kv.2)) r) k = jopt <$> assoc r k.
Proof.
  induction r as [|[k0 v0] r IH]; [done|]. simpl.
  by case_bool_decide.
Qed.

(** X11: the object written for a chant keeps every field of the chant
    other than [sources], and always has a [sources] list: the entries of
    the bridge rows that name the id of the chant, in the order of the
    bridge table, and the empty list when there is none or the chant has no
    id.  A [sources] column of the chants file is overwritten. *)
Theorem chant_obj_fields (sbi : gmap str csvrow) (css : list csvrow)
    (chant : csvrow) :
  exists d,
    chant_obj (group_sources sbi css) chant = JDict d /\
    assoc d (txt "sources")
    = Some (JList
              match row_get chant (txt "id") with
              | Some cid =>
                  map (bridge_entry sbi)
                    (filter (fun cs => row_get cs (txt "chant_id") = Some cid)
                       css)
              | None => []
              end) /\
    forall k, k <> txt "sources" -> assoc d k = jopt <$> assoc chant k.
Proof.
  unfold chant_obj, jrow. eexists. split; [reflexivity|]. split.
  - rewrite assoc_dict_set, bool_decide_eq_true_2 by done. do 2 f_equal.
    destruct (row_get chant (txt "id")) as [cid|]; [|done].
    cbn [mbind option_bind]. unfold group_sources.
    rewrite foldl_group_step_lookup, lookup_empty.
    by destruct (filter _ css).
  - intros k Hk. rewrite assoc_dict_set, bool_decide_eq_false_2 by done.
    apply assoc_jrow.
Qed.

(** X12: the [source] of an entry is the last row of the sources whose id
    is the [source] of the bridge row, and null when the bridge row names no
    source or no row of the sources has that id; the run does not fail on
    an unresolved key. *)
Theorem bridge_entry_source (sources : list csvrow) (cs : csvrow) :
  exists d,
    bridge_entry (index_sources sources) cs = JDict d /\
    assoc d (txt "id") = Some (jopt (row_get cs (txt "source"))) /\
    assoc d (txt "source")
    = Some match row_get cs (txt "source") with
           | Some sid =>
               match last (filter (fun r => row_get r (txt "id") = Some sid)
                             sources) with
               | Some s => jrow s
               | None => JNull
               end
           | None => JNull
           end.
Proof.
  unfold bridge_entry. eexists. split; [reflexivity|]. split; [reflexivity|].
  cbn [assoc]. repeat (rewrite bool_decide_eq_false_2 by (by vm_compute)).
  rewrite bool_decide_eq_true_2 by done. f_equal.
  destruct (row_get cs (txt "source")) as [sid|]; [|done].
  cbn [lookup_source mbind option_bind]. unfold index_sources.
  rewrite foldl_index_step_lookup, lookup_empty.
  by destruct (last _).
Qed.

(** ** What [main] does to the file system *)

Section Stage2Runs.

Variable CSV_DIR : str.
Variable OUTPUT_PATH : str.
Variable dict_reader : str -> list csvrow.
Variable json_dumps : jval -> str.
Variable parents : str -> list str.
Variable gzip_step : bool -> str -> io unit.

Lemma require_exists_fs (path msg : str) (fs fs' : fsys) (r : res unit) :
  require_exists path msg fs = (fs', r) -> fs' = fs.
Proof.
  unfold require_exists, io_raise, io_ret.
  destruct (negb (path_exists fs path)); by intros [= <- _].
Qed.

Lemma load_csv_dicts_fs (path : str) (fs fs' : fsys)
    (r : res (list csvrow)) :
  load_csv_dicts dict_reader path fs = (fs', r) -> fs' = fs.
Proof.
  unfold load_csv_dicts, io_raise, io_ret.
  destruct (files fs !! path); by intros [= <- _].
Qed.

Lemma mkdir_parents_fs (out_path : str) (fs fs' : fsys) (r : res unit) :
  mkdir_parents parents out_path fs = (fs', r) ->
  files fs' = files fs /\ dirs fs ⊆ dirs fs'.
Proof.
  unfold mkdir_parents, io_raise.
  destruct (existsb _ _); intros [= <- _]; [done|]. simpl. split; [done|].
  set_solver.
Qed.

Lemma write_jsonl_fs (out_path : str) (lines : list str) (fs fs' : fsys)
    (r : res unit) :
  write_jsonl out_path lines fs = (fs', r) ->
  dirs fs' = dirs fs /\
  forall p, p <> out_path -> files fs' !! p = files fs !! p.
Proof.
  unfold write_jsonl, io_raise.
  case_bool_decide; intros [= <- _]; [done|]. simpl. split; [done|].
  intros p Hp. by rewrite lookup_insert_ne.
Qed.

Lemma io_bind_inv {A B} (m : io A) (k : A -> io B) (fs fs' : fsys)
    (r : res B) :
  io_bind m k fs = (fs', r) ->
  (exists fs1 a, m fs = (fs1, Ok a) /\ k a fs1 = (fs', r)) \/
  (exists r1, m fs = (fs', r1)).
Proof.
  unfold io_bind. destruct (m fs) as [fs1 [a|e|]]; eauto.
  all: intros [= <- _]; eauto.
Qed.


End Stage2Runs.

(** ** A dump of one-line statements, end to end *)

Lemma lstrip_by_app_true (p : ascii -> bool) (ws s : str) :
  forallb p ws = true -> Py.lstrip_by p (ws ++ s) = Py.lstrip_by p s.
Proof.
  induction ws as [|w ws IH]; [done|]. simpl. intros H.
  apply andb_prop in H as [-> H]. by apply IH.
Qed.

Lemma rstrip_by_app (p : ascii -> bool) (s ws : str) :
  forallb p ws = true -> Py.rstrip_by p (s ++ ws) = Py.rstrip_by p s.
Proof.
  intros H. unfold Py.rstrip_by. rewrite rev_app_distr.
  rewrite lstrip_by_app_true; [done|].
  rewrite forallb_forall in *. intros x Hx. apply H. by apply in_rev.
Qed.

Lemma join_tuples_last (sep : str) (t : list field_src)
    (ts : list (list field_src)) :
  exists b, Py.join sep (map tuple_text (t :: ts)) = b ++ [ch_rparen].
Proof.
  revert t. induction ts as [|u ts IH]; intros t.
  - exists (ch_lparen :: Py.join [ch_comma] (map field_text t)). reflexivity.
  - destruct (IH u) as [b Hb].
    exists (tuple_text t ++ sep ++ b).
    change (Py.join sep (map tuple_text (t :: u :: ts)))
      with (tuple_text t ++ sep ++ Py.join sep (map tuple_text (u :: ts))).
    rewrite Hb. by rewrite <- !app_assoc.
Qed.

(** The line without its line end, cut before the [;]. *)
Lemma statement_line_shape (table : str) (names : list str) (sep : str)
    (t : list field_src) (ts : list (list field_src)) :
  exists x,
    statement_line table names sep (t :: ts)
    = ("I"%char :: x ++ [ch_rparen]) ++ [ch_semi] ++ [ch_nl].
Proof.
  destruct (join_tuples_last sep t ts) as [b Hb].
  exists (txt "NSERT INTO `" ++ table ++ txt "` (" ++ column_list_text names
          ++ txt ") VALUES " ++ b).
  unfold statement_line, insert_prefix. rewrite Hb.
  change (txt "INSERT INTO `") with ("I"%char :: txt "NSERT INTO `").
  change (txt "`") with [ch_backtick].
  change (txt " (") with [ch_space; ch_lparen].
  change (txt "` (") with ([ch_backtick] ++ [ch_space; ch_lparen]).
  change (txt ";") with [ch_semi].
  rewrite <- !app_comm_cons. f_equal.
  rewrite <- !app_assoc. cbn [app]. rewrite <- ?app_assoc. reflexivity.
Qed.

Lemma statement_line_yield (table : str) (names : list str) (sep : str)
    (t : list field_src) (ts : list (list field_src)) :
  ch_lparen ∉ table -> names <> [] -> Forall column_name_ok names ->
  opens_statement table (statement_line table names sep (t :: ts)) = true /\
  closes_statement (statement_line table names sep (t :: ts)) = true /\
  yield_split (statement_text [statement_line table names sep (t :: ts)])
  = [(names, ch_space :: Py.join sep (map tuple_text (t :: ts)))].
Proof.
  intros Ht Hne Hok.
  destruct (statement_line_shape table names sep t ts) as [x Hx].
  destruct (join_tuples_last sep t ts) as [b Hb].
  set (line := insert_prefix table ++ txt " (" ++ column_list_text names
               ++ txt ") VALUES " ++ Py.join sep (map tuple_text (t :: ts))
               ++ txt ";").
  assert (Hraw : statement_line table names sep (t :: ts) = line ++ [ch_nl])
    by (unfold statement_line, line; by rewrite <- !app_assoc).
  assert (Hline : line = ("I"%char :: x ++ [ch_rparen]) ++ [ch_semi]).
  { rewrite Hraw in Hx. rewrite (app_assoc _ [ch_semi]) in Hx.
    by apply app_inv_tail in Hx. }
  assert (Hlo : line_of (statement_line table names sep (t :: ts)) = line).
  { unfold line_of, Py.rstrip_chars. rewrite Hraw.
    rewrite rstrip_by_app by reflexivity.
    apply rstrip_by_id. rewrite Hline, last_snoc. reflexivity. }
  split; [|split].
  - unfold opens_statement. rewrite Hlo. apply startswith_refl_app.
  - unfold closes_statement, ends_statement. rewrite Hlo, Hline.
    unfold Py.strip. rewrite <- app_comm_cons.
    rewrite lstrip_by_id by reflexivity.
    rewrite rstrip_by_id
      by (rewrite app_comm_cons, last_snoc; reflexivity).
    unfold Py.endswith. rewrite app_comm_cons, rev_unit. reflexivity.
  - change (statement_text [statement_line table names sep (t :: ts)])
      with (line_of (statement_line table names sep (t :: ts))).
    rewrite Hlo.
    assert (Hparts :
      line = (insert_prefix table ++ [ch_space])
             ++ ch_lparen :: column_list_text names
             ++ ch_rparen :: [ch_space] ++ txt "VALUES"
             ++ (ch_space :: Py.join sep (map tuple_text (t :: ts))
                 ++ [ch_semi])).
    { unfold line. change (txt " (") with ([ch_space] ++ [ch_lparen]).
      change (txt ") VALUES ")
        with ([ch_rparen] ++ [ch_space] ++ txt "VALUES" ++ [ch_space]).
      change (txt ";") with [ch_semi].
      rewrite <- !app_assoc. cbn [app]. rewrite <- ?app_assoc. reflexivity. }
    unfold yield_split. rewrite Hparts, split_insert_parts.
    + rewrite split_column_list by done. do 3 f_equal.
      unfold Py.rstrip_chars. rewrite app_comm_cons.
      rewrite rstrip_by_app by reflexivity.
      apply rstrip_by_id. rewrite Hb, app_comm_cons, last_snoc. reflexivity.
    + unfold insert_prefix. rewrite !elem_of_app.
      intros [[H|[H|H]]|H]; [|done| |];
        apply list_elem_of_In in H; vm_compute in H; intuition discriminate.
    + by apply column_list_no_rparen.
    + repeat constructor. by vm_compute.
    + reflexivity.
Qed.

Lemma scan_statement_lines (table : str) (names : list str) (sep : str)
    (stmts : list (list (list field_src))) :
  ch_lparen ∉ table -> names <> [] -> Forall column_name_ok names ->
  Forall (fun tuples => tuples <> []) stmts ->
  forall st : rstate,
    capturing st = false ->
    (scan table st (map (statement_line table names sep) stmts)).2
    = map (fun tuples =>
             (names, ch_space :: Py.join sep (map tuple_text tuples))) stmts.
Proof.
  intros Ht Hne Hok Hall. induction Hall as [|tuples stmts Hn _ IH];
    intros st Hc; [done|].
  destruct tuples as [|t ts]; [done|].
  destruct (statement_line_yield table names sep t ts Ht Hne Hok)
    as (Ho & Hcl & Hy).
  cbn [map]. rewrite scan_cons, line_step_single by done. cbn [fst snd].
  rewrite Hy, IH by done. reflexivity.
Qed.


Section Stage2Rerun.

Variable CSV_DIR : str.
Variable OUTPUT_PATH : str.
Variable dict_reader : str -> list csvrow.
Variable json_dumps : jval -> str.
Variable parents : str -> list str.
Variable gzip_step : bool -> str -> io unit.

Lemma existsb_ext_In {A} (f g : A -> bool) (l : list A) :
  (forall x, In x l -> f x = g x) -> existsb f l = existsb g l.
Proof.
  induction l as [|x l IH]; intros H; [done|]. simpl.
  rewrite (H x) by (by left). rewrite IH; [done|].
  intros y Hy. apply H. by right.
Qed.

Lemma io_bind_ok_inv {A B} (m : io A) (k : A -> io B) (fs fs' : fsys)
    (b : B) :
  io_bind m k fs = (fs', Ok b) ->
  exists fs1 a, m fs = (fs1, Ok a) /\ k a fs1 = (fs', Ok b).
Proof.
  unfold io_bind. destruct (m fs) as [fs1 [a|e|]]; [eauto|done|done].
Qed.

Lemma load_csv_dicts_ok (path : str) (fs fs' : fsys) (rows : list csvrow) :
  load_csv_dicts dict_reader path fs = (fs', Ok rows) ->
  fs' = fs /\ exists c, files fs !! path = Some c /\ rows = dict_reader c.
Proof.
  unfold load_csv_dicts, io_raise, io_ret.
  destruct (files fs !! path) as [c|]; [|done]. intros [= <- <-]. eauto.
Qed.

Lemma mkdir_parents_ok (out_path : str) (fs fs' : fsys) (u : unit) :
  mkdir_parents parents out_path fs = (fs', Ok u) ->
  existsb (fun d => bool_decide (is_Some (files fs !! d))) (parents out_path)
  = false /\
  fs' = FSys (files fs) (dirs fs ∪ list_to_set (parents out_path)).
Proof.
  unfold mkdir_parents, io_raise. destruct (existsb _ _); [done|].
  by intros [= <-].
Qed.

Lemma write_jsonl_ok (out_path : str) (lines : list str) (fs fs' : fsys)
    (u : unit) :
  write_jsonl out_path lines fs = (fs', Ok u) ->
  (out_path ∉ dirs fs) /\
  fs' = FSys (<[out_path := concat lines]> (files fs)) (dirs fs).
Proof.
  unfold write_jsonl, io_raise. case_bool_decide; [done|]. by intros [= <-].
Qed.

Lemma main_ok_inv (a : args) (fs fs' : fsys) :
  arg_gzip a = false ->
  main CSV_DIR OUTPUT_PATH dict_reader json_dumps parents gzip_step a fs
  = (fs', Ok tt) ->
  exists c1 c2 c3,
    files fs !! (chants_path CSV_DIR) = Some c1 /\
    files fs !! (sources_path CSV_DIR) = Some c2 /\
    files fs !! (bridge_path CSV_DIR) = Some c3 /\
    existsb (fun d => bool_decide (is_Some (files fs !! d)))
      (parents (resolve_out_path OUTPUT_PATH a)) = false /\
    (resolve_out_path OUTPUT_PATH a
     ∉ dirs fs ∪ list_to_set (parents (resolve_out_path OUTPUT_PATH a))) /\
    fs' = FSys (<[resolve_out_path OUTPUT_PATH a
                  := jsonl_content dict_reader json_dumps c1 c2 c3]>
                  (files fs))
            (dirs fs ∪ list_to_set (parents (resolve_out_path OUTPUT_PATH a))).
Proof.
  intros Hg. unfold main. fold (resolve_out_path OUTPUT_PATH a).
  fold (chants_path CSV_DIR) (sources_path CSV_DIR) (bridge_path CSV_DIR).
  rewrite Hg. intros H.
  apply io_bind_ok_inv in H as (? & ? & H1 & H).
  apply require_exists_fs in H1 as ->.
  apply io_bind_ok_inv in H as (? & ? & H1 & H).
  apply require_exists_fs in H1 as ->.
  apply io_bind_ok_inv in H as (? & ? & H1 & H).
  apply require_exists_fs in H1 as ->.
  apply io_bind_ok_inv in H as (? & chants & H1 & H).
  apply load_csv_dicts_ok in H1 as (-> & c1 & Hc1 & ->).
  apply io_bind_ok_inv in H as (? & sources & H1 & H).
  apply load_csv_dicts_ok in H1 as (-> & c2 & Hc2 & ->).
  apply io_bind_ok_inv in H as (? & bridge & H1 & H).
  apply load_csv_dicts_ok in H1 as (-> & c3 & Hc3 & ->).
  apply io_bind_ok_inv in H as (? & ? & H1 & H).
  apply mkdir_parents_ok in H1 as (Hp & ->).
  apply io_bind_ok_inv in H as (? & ? & H1 & H).
  apply write_jsonl_ok in H1 as (Hd & ->).
  unfold io_ret in H. injection H as <-.
  exists c1, c2, c3. done.
Qed.

Lemma main_ok (a : args) (fs : fsys) (c1 c2 c3 : str) :
  arg_gzip a = false ->
  files fs !! (chants_path CSV_DIR) = Some c1 ->
  files fs !! (sources_path CSV_DIR) = Some c2 ->
  files fs !! (bridge_path CSV_DIR) = Some c3 ->
  existsb (fun d => bool_decide (is_Some (files fs !! d)))
    (parents (resolve_out_path OUTPUT_PATH a)) = false ->
  resolve_out_path OUTPUT_PATH a
  ∉ dirs fs ∪ list_to_set (parents (resolve_out_path OUTPUT_PATH a)) ->
  main CSV_DIR OUTPUT_PATH dict_reader json_dumps parents gzip_step a fs
  = (FSys (<[resolve_out_path OUTPUT_PATH a
             := jsonl_content dict_reader json_dumps c1 c2 c3]> (files fs))
       (dirs fs ∪ list_to_set (parents (resolve_out_path OUTPUT_PATH a))),
     Ok tt).
Proof.
  intros Hg H1 H2 H3 Hp Hd. unfold main.
  fold (resolve_out_path OUTPUT_PATH a).
  fold (chants_path CSV_DIR) (sources_path CSV_DIR) (bridge_path CSV_DIR).
  rewrite Hg.
  assert (He : forall p c msg, files fs !! p = Some c ->
                 require_exists p msg fs = (fs, Ok tt)).
  { intros p c msg Hpc. apply require_exists_present. unfold path_exists.
    rewrite Hpc. by rewrite bool_decide_eq_true_2. }
  unfold io_bind at 1. rewrite (He _ _ _ H1).
  unfold io_bind at 1. rewrite (He _ _ _ H2).
  unfold io_bind at 1. rewrite (He _ _ _ H3).
  unfold io_bind, load_csv_dicts, io_ret. rewrite H1, H2, H3.
  unfold mkdir_parents. rewrite Hp. unfold write_jsonl. cbn [dirs files].
  rewrite bool_decide_eq_false_2 by done. reflexivity.
Qed.


End Stage2Rerun.

(** ** Instances *)


Lemma parse_values_blob_app_witness :
  parse_values_blob (txt "(1)" ++ txt ",('a')")
  = Ok ([[txt "1"]] ++ [[txt "a"]]).
Proof.
  apply (parse_values_blob_app (txt "(1)") (txt ",('a')")
           (PState [[txt "1"]] [] [] 0 false 3) [[txt "a"]]).
  - vm_compute. reflexivity.
  - reflexivity.
  - reflexivity.
  - intros H. vm_compute in H. discriminate.
  - vm_compute. reflexivity.
Defined.


Lemma opens_statement_one_table_witness : txt "t" = txt "t".
Proof.
  apply (opens_statement_one_table (txt "t") (txt "t")
           (nl_line "INSERT INTO `t` (`a`) VALUES (1);")).
  - intros H. apply list_elem_of_In in H. vm_compute in H.
    intuition discriminate.
  - intros H. apply list_elem_of_In in H. vm_compute in H.
    intuition discriminate.
  - reflexivity.
  - reflexivity.
Defined.

Lemma not_elem_of_computed (c : ascii) (s : str) :
  forallb (fun x => negb (ascii_eqb c x)) s = true -> c ∉ s.
Proof.
  intros H Hin. rewrite forallb_forall in H.
  apply list_elem_of_In in Hin. specialize (H c Hin).
  unfold ascii_eqb in H. by rewrite bool_decide_eq_true_2 in H.
Qed.

Lemma column_name_ok_computed (n : str) :
  forallb (fun x => negb (ascii_eqb ch_comma x)) n = true ->
  forallb (fun x => negb (ascii_eqb ch_rparen x)) n = true ->
  bool_decide (head n = Some ch_backtick) = false ->
  bool_decide (last n = Some ch_backtick) = false ->
  column_name_ok n.
Proof.
  intros H1 H2 H3 H4. split; [by apply not_elem_of_computed|].
  split; [by apply not_elem_of_computed|].
  split; [exact (bool_decide_eq_false_1 _ H3)|exact (bool_decide_eq_false_1 _ H4)].
Qed.


Lemma iter_insert_chunks_yields_clean_witness :
  sample_pair.1 <> [] /\
  Forall (fun c => head c <> Some ch_backtick /\ last c <> Some ch_backtick)
    sample_pair.1 /\
  forall c, last sample_pair.2 = Some c ->
            c ∉ [ch_semi; ch_nl; ch_cr; ch_space].
Proof.
  apply (iter_insert_chunks_yields_clean sample_dump (txt "t")).
  vm_compute. constructor.
Defined.

Lemma extract_table_rows_witness :
  exists out,
    extract_table sample_dump (txt "t") = Ok out /\
    forall hdr body,
      out = hdr :: body -> Forall (fun r => length r = length hdr) body.
Proof.
  destruct (extract_table_rows sample_dump (txt "t"))
    as (rowss & out & _ & He & _ & Hw).
  exists out. by split.
Defined.

Lemma chant_obj_fields_witness :
  exists d,
    chant_obj (group_sources ∅ []) source_A = JDict d /\
    assoc d (txt "sources") = Some (JList []) /\
    assoc d (txt "title") = Some (JStr (txt "A")).
Proof.
  destruct (chant_obj_fields ∅ [] source_A) as (d & Hd & Hs & Hk).
  exists d. split; [exact Hd|]. split; [exact Hs|].
  rewrite Hk; [reflexivity|]. intros H. vm_compute in H. discriminate.
Defined.



